(** * ObservableAsyncQueue (cogs/shared/collections.py)

    A shallow embedding of [ObservableAsyncQueue], the subclass of
    [asyncio.Queue] that keeps a cached shallow copy of the queue contents
    (the [view] cached property) and adds [unshift] and [pop].

    The event loop is single threaded: between two [await]s a coroutine runs
    atomically.  Every coroutine is therefore cut at its [await] into
    segments, each of which is a function on the state of the queue object;
    a segment ends by returning, by raising, or by suspending on a future.

    Python objects that are shared by reference live in stores: the deques
    (the live [_queue] and every copy made by [view]) in [heap], the futures
    of the waiters in [futures]. *)

From stdpp Require Import base option list gmap strings.
From Stdlib Require Import ZArith Lia.

Local Open Scope Z_scope.

(** ** Futures of the event loop *)

(** [asyncio.Future._state] *)
Inductive fstate := PENDING | CANCELLED | FINISHED.

Global Instance fstate_eq_dec : EqDecision fstate.
Proof. solve_decision. Defined.

(** Exceptions that the modelled methods raise. *)
Inductive exn :=
  | IndexError
  | NotImplementedError
  | CancelledError
  | QueueFull
  | QueueEmpty.

Global Instance exn_eq_dec : EqDecision exn.
Proof. solve_decision. Defined.

(** References to deques and to futures. *)
Abbreviation loc := nat (only parsing).
Abbreviation fut := nat (only parsing).

(** [deque.remove(x)]: drops the first occurrence; Python raises
    [ValueError] when there is none, which both callers swallow
    ([except ValueError: pass]), so the deque is returned unchanged. *)
Fixpoint deque_remove (x : fut) (l : list fut) : list fut :=
  match l with
  | [] => []
  | y :: l' => if decide (x = y) then l' else y :: deque_remove x l'
  end.

(** [Future.done()] on a state. *)
Definition fstate_done (s : fstate) : bool :=
  match s with PENDING => false | _ => true end.

Section ObservableAsyncQueue.

Context {T : Type}.

(** The queue object together with the objects it refers to. *)
Record state := mkState {
  _maxsize : Z;
  _queue : loc;                      (* the live deque *)
  _getters : list fut;               (* deque of futures, oldest first *)
  _putters : list fut;
  _unfinished_tasks : Z;
  _finished : bool;                  (* the Event is set *)
  view : option loc;                 (* self.__dict__.get("view") *)
  heap : gmap loc (list T);          (* deque objects *)
  next_loc : loc;
  futures : gmap fut fstate;         (* future objects *)
  next_fut : fut
}.

(** How a segment of a coroutine (or a plain method) ends. *)
Inductive outcome (R : Type) :=
  | Returned (r : R) (st : state)
  | Raised (e : exn) (st : state)
  | Suspended (f : fut) (st : state).   (* awaiting future [f] *)

Global Arguments Returned {R} r st.
Global Arguments Raised {R} e st.
Global Arguments Suspended {R} f st.

Definition state_of {R} (o : outcome R) : state :=
  match o with
  | Returned _ st | Raised _ st | Suspended _ st => st
  end.

Definition coro (R : Type) := state -> outcome R.

Definition ret {R} (r : R) : coro R := fun st => Returned r st.

Definition bind {A B} (m : coro A) (k : A -> coro B) : coro B :=
  fun st =>
    match m st with
    | Returned a st' => k a st'
    | Raised e st' => Raised e st'
    | Suspended f st' => Suspended f st'
    end.

(** ** Field updates *)

Definition set_waiters (g p : list fut) (fs : gmap fut fstate) (st : state) : state :=
  mkState (_maxsize st) (_queue st) g p (_unfinished_tasks st) (_finished st)
          (view st) (heap st) (next_loc st) fs (next_fut st).

Definition set_getters (g : list fut) (st : state) : state :=
  set_waiters g (_putters st) (futures st) st.

Definition set_putters (p : list fut) (st : state) : state :=
  set_waiters (_getters st) p (futures st) st.

Definition set_futures (fs : gmap fut fstate) (st : state) : state :=
  set_waiters (_getters st) (_putters st) fs st.

(** The items of the live deque, front first. *)
Definition contents (st : state) : list T :=
  default [] (heap st !! _queue st).

(** In-place mutation of the live deque. *)
Definition deque_write (l : list T) (st : state) : state :=
  mkState (_maxsize st) (_queue st) (_getters st) (_putters st)
          (_unfinished_tasks st) (_finished st) (view st)
          (<[_queue st := l]> (heap st)) (next_loc st)
          (futures st) (next_fut st).

(** [if "view" in self.__dict__: del self.__dict__["view"]] *)
Definition invalidate (st : state) : state :=
  mkState (_maxsize st) (_queue st) (_getters st) (_putters st)
          (_unfinished_tasks st) (_finished st) None
          (heap st) (next_loc st) (futures st) (next_fut st).

(** ** Futures *)

Definition future_state (st : state) (f : fut) : fstate :=
  default PENDING (futures st !! f).

Definition future_done (st : state) (f : fut) : bool :=
  fstate_done (future_state st f).

Definition future_cancelled (st : state) (f : fut) : bool :=
  bool_decide (future_state st f = CANCELLED).

(** [loop.create_future()] *)
Definition create_future (st : state) : fut * state :=
  (next_fut st,
   mkState (_maxsize st) (_queue st) (_getters st) (_putters st)
           (_unfinished_tasks st) (_finished st) (view st)
           (heap st) (next_loc st)
           (<[next_fut st := PENDING]> (futures st)) (S (next_fut st))).

(** [Future.cancel()]: no effect on a future that is done. *)
Definition future_cancel (f : fut) (st : state) : state :=
  if future_done st f then st
  else set_futures (<[f := CANCELLED]> (futures st)) st.

(** [Future.set_result(None)] on a pending future. *)
Definition future_set_result (f : fut) (fs : gmap fut fstate) : gmap fut fstate :=
  <[f := FINISHED]> fs.

(** ** asyncio.Queue

    The base class, after CPython's [asyncio/queues.py] in the version
    whose [put] handler [unshift] reproduces line for line. *)

(** The object that [Queue.__init__(maxsize)] sets up: an empty deque, no
    waiters, no cached view. *)
Definition new_queue (maxsize : Z) : state :=
  mkState maxsize 0%nat [] [] 0 true None {[ 0%nat := [] ]} 1%nat ∅ 0%nat.

(** The constructor call as a fallible computation.  [ObservableAsyncQueue]
    has no [__init__] of its own and [Queue.__init__] has no [raise]: every
    integer is accepted. *)
Definition Queue_init (maxsize : Z) : exn + state :=
  inr (new_queue maxsize).

(** [_wakeup_next(waiters)]: pops waiters from the left until one that is
    not done is found, and sets its result. *)
Fixpoint wakeup (fs : gmap fut fstate) (waiters : list fut)
  : gmap fut fstate * list fut :=
  match waiters with
  | [] => (fs, [])
  | w :: rest =>
      if fstate_done (default PENDING (fs !! w)) then wakeup fs rest
      else (future_set_result w fs, rest)
  end.

Definition _wakeup_next_getters (st : state) : state :=
  let '(fs, g) := wakeup (futures st) (_getters st) in
  set_waiters g (_putters st) fs st.

Definition _wakeup_next_putters (st : state) : state :=
  let '(fs, p) := wakeup (futures st) (_putters st) in
  set_waiters (_getters st) p fs st.

Definition qsize (st : state) : Z := Z.of_nat (length (contents st)).

Definition empty (st : state) : bool :=
  match contents st with [] => true | _ => false end.

Definition full (st : state) : bool :=
  if _maxsize st <=? 0 then false else _maxsize st <=? qsize st.

(** [asyncio.Queue._put] and [asyncio.Queue._get], reached through
    [super()]. *)
Definition base_put (item : T) (st : state) : state :=
  deque_write (contents st ++ [item]) st.

Definition base_get : coro T := fun st =>
  match contents st with
  | [] => Raised IndexError st
  | x :: l => Returned x (deque_write l st)
  end.

(** ** ObservableAsyncQueue *)

(** The [view] cached property: the cached copy if there is one, else a
    fresh copy of the live deque, stored in [__dict__]. *)
Definition get_view (st : state) : loc * state :=
  match view st with
  | Some v => (v, st)
  | None =>
      (next_loc st,
       mkState (_maxsize st) (_queue st) (_getters st) (_putters st)
               (_unfinished_tasks st) (_finished st) (Some (next_loc st))
               (<[next_loc st := contents st]> (heap st)) (S (next_loc st))
               (futures st) (next_fut st))
  end.

(** What a deque reference denotes in a state. *)
Definition deref (st : state) (l : loc) : list T :=
  default [] (heap st !! l).

Definition _put (item : T) : coro T := fun st =>
  Returned item (invalidate (base_put item st)).

Definition _get : coro T := fun st =>
  match base_get st with
  | Returned item st' => Returned item (invalidate st')
  | o => o
  end.


(** [asyncio.Queue.put_nowait]; [self._put] dispatches to the override. *)
Definition put_nowait (item : T) : coro unit := fun st =>
  if full st then Raised QueueFull st
  else
    match _put item st with
    | Returned _ st1 =>
        let st2 :=
          mkState (_maxsize st1) (_queue st1) (_getters st1) (_putters st1)
                  (_unfinished_tasks st1 + 1) false (view st1)
                  (heap st1) (next_loc st1) (futures st1) (next_fut st1) in
        Returned tt (_wakeup_next_getters st2)
    | Raised e st1 => Raised e st1
    | Suspended f st1 => Suspended f st1
    end.

(** [asyncio.Queue.get_nowait] *)
Definition get_nowait : coro T := fun st =>
  if empty st then Raised QueueEmpty st
  else
    match _get st with
    | Returned item st1 => Returned item (_wakeup_next_putters st1)
    | o => o
    end.

(** Suspending on a new future appended to a deque of waiters. *)
Definition wait_putter {R} : coro R := fun st =>
  let '(putter, st1) := create_future st in
  Suspended putter (set_putters (_putters st1 ++ [putter]) st1).

Definition wait_getter {R} : coro R := fun st =>
  let '(getter, st1) := create_future st in
  Suspended getter (set_getters (_getters st1 ++ [getter]) st1).

(** [put], from the head of its [while self.full()] loop: the segment run
    when the coroutine starts and again each time [await putter] returns. *)
Definition put (item : T) : coro unit := fun st =>
  if full st then wait_putter st else put_nowait item st.

(** The [except:] clause around [await putter], entered with the exception
    [e] that the await raised. *)
Definition put_except (putter : fut) (e : exn) : coro unit := fun st =>
  let st1 := future_cancel putter st in
  let st2 := set_putters (deque_remove putter (_putters st1)) st1 in
  let st3 :=
    if negb (full st2) && negb (future_cancelled st2 putter)
    then _wakeup_next_putters st2 else st2 in
  Raised e st3.

(** [get], from the head of its [while self.empty()] loop. *)
Definition get : coro T := fun st =>
  if empty st then wait_getter st else get_nowait st.

Definition get_except (getter : fut) (e : exn) : coro T := fun st =>
  let st1 := future_cancel getter st in
  let st2 := set_getters (deque_remove getter (_getters st1)) st1 in
  let st3 :=
    if negb (empty st2) && negb (future_cancelled st2 getter)
    then _wakeup_next_getters st2 else st2 in
  Raised e st3.

(** [unshift], from the head of its [while self.full()] loop. *)
Definition unshift (item : T) : coro T := fun st =>
  if full st then wait_putter st
  else Returned item (invalidate (deque_write (item :: contents st) st)).

(** The [except:] clause of [unshift] (lines 311-324). *)
Definition unshift_except (putter : fut) (e : exn) : coro T := fun st =>
  let st1 := future_cancel putter st in
  let st2 := set_putters (deque_remove putter (_putters st1)) st1 in
  let st3 :=
    if negb (full st2) && negb (future_cancelled st2 putter)
    then _wakeup_next_putters st2 else st2 in
  Raised e st3.

(** [pop]: [deque.pop()] raises [IndexError] on an empty deque. *)
Definition pop : coro T := fun st =>
  match reverse (contents st) with
  | [] => Raised IndexError st
  | item :: r => Returned item (invalidate (deque_write (reverse r) st))
  end.

(** [__setitem__(_, __)] *)
Definition __setitem__ (i : Z) (v : T) : coro unit := fun st =>
  Raised NotImplementedError st.

(** [__len__] *)
Definition __len__ (st : state) : Z := qsize st.

(** [__iter__]: the items of the view at the time of the call. *)
Definition __iter__ (st : state) : list T * state :=
  let '(v, st1) := get_view st in (deref st1 v, st1).

(** [__contains__] *)
Definition __contains__ `{EqDecision T} (item : T) (st : state) : bool * state :=
  let '(v, st1) := get_view st in (bool_decide (item ∈ deref st1 v), st1).

(** [__str__]; [str_deque] stands for Python's [str] of a deque. *)
Definition __str__ (str_deque : list T -> string) (st : state) : string * state :=
  let '(v, st1) := get_view st in (str_deque (deref st1 v), st1).

End ObservableAsyncQueue.

Global Arguments state : clear implicits.
Global Arguments outcome : clear implicits.
Global Arguments coro : clear implicits.

Declare Scope coro_scope.
Delimit Scope coro_scope with coro.
Notation "x <- m ;; k" := (bind m (fun x => k))
  (at level 100, m at next level, right associativity) : coro_scope.
Notation "m ;; k" := (bind m (fun _ => k))
  (at level 100, right associativity) : coro_scope.

(** ** Interleavings

    What the tasks of one event loop can do to a queue, one atomic segment
    at a time.  A coroutine that was woken re-enters its loop head, which is
    the same segment as its first entry.  [OpCancel f] is [Task.cancel()]
    on a task that awaits [f]: it cancels [f] if [f] is still pending, and
    the task later runs its [except:] clause ([OpPutExcept],
    [OpGetExcept], [OpUnshiftExcept]).  [OpView] is any read through the
    cached property ([view], [__getitem__], [__iter__], [__contains__],
    [__str__]). *)
Inductive op (T : Type) :=
  | OpPut (item : T)
  | OpPutExcept (putter : fut) (e : exn)
  | OpPutNowait (item : T)
  | OpGet
  | OpGetExcept (getter : fut) (e : exn)
  | OpGetNowait
  | OpUnshift (item : T)
  | OpUnshiftExcept (putter : fut) (e : exn)
  | OpPop
  | OpView
  | OpSetItem (i : Z) (v : T)
  | OpCancel (f : fut).

Global Arguments OpPut {T} item.
Global Arguments OpPutExcept {T} putter e.
Global Arguments OpPutNowait {T} item.
Global Arguments OpGet {T}.
Global Arguments OpGetExcept {T} getter e.
Global Arguments OpGetNowait {T}.
Global Arguments OpUnshift {T} item.
Global Arguments OpUnshiftExcept {T} putter e.
Global Arguments OpPop {T}.
Global Arguments OpView {T}.
Global Arguments OpSetItem {T} i v.
Global Arguments OpCancel {T} f.

Definition exec {T} (o : op T) (st : state T) : state T :=
  match o with
  | OpPut item => state_of (put item st)
  | OpPutExcept f e => state_of (put_except f e st)
  | OpPutNowait item => state_of (put_nowait item st)
  | OpGet => state_of (get st)
  | OpGetExcept f e => state_of (get_except f e st)
  | OpGetNowait => state_of (get_nowait st)
  | OpUnshift item => state_of (unshift item st)
  | OpUnshiftExcept f e => state_of (unshift_except f e st)
  | OpPop => state_of (pop st)
  | OpView => snd (get_view st)
  | OpSetItem i v => state_of (__setitem__ i v st)
  | OpCancel f => future_cancel f st
  end.

Fixpoint run {T} (ops : list (op T)) (st : state T) : state T :=
  match ops with
  | [] => st
  | o :: ops' => run ops' (exec o st)
  end.


(** ** Sequential scripts of one task *)

Section Scripts.

Context {T : Type}.
Implicit Types (st : state T) (l : list T).

Local Open Scope coro_scope.

(** [await q.put(a); await q.put(b); await q.put(c)] and then three
    [await q.get()], collecting the results. *)
Definition put3_get3 (a b c : T) : coro T (list T) :=
  put a ;; put b ;; put c ;;
  x <- get ;; y <- get ;; z <- get ;; ret [x; y; z].

(** [await q.unshift(a); await q.unshift(b)], then two [await q.get()]. *)
Definition unshift2_get2 (a b : T) : coro T (list T) :=
  unshift a ;; unshift b ;; x <- get ;; y <- get ;; ret [x; y].

(** [await q.put(a); await q.put(b)], then two [await q.pop()]. *)
Definition put2_pop2 (a b : T) : coro T (list T) :=
  put a ;; put b ;; x <- pop ;; y <- pop ;; ret [x; y].

(** ** Relations between states used in the statements *)

(** [mutated st st' l]: [st'] is [st] with the live deque rewritten to [l]
    and the cached view dropped; no other deque object is touched. *)
Definition mutated st st' l : Prop :=
  contents st' = l /\ _maxsize st' = _maxsize st /\ _queue st' = _queue st /\
  view st' = None /\ next_loc st' = next_loc st /\
  forall v, v <> _queue st -> heap st' !! v = heap st !! v.

(** [same_deques st st']: only waiters and futures may differ. *)
Definition same_deques st st' : Prop :=
  _maxsize st' = _maxsize st /\ _queue st' = _queue st /\
  view st' = view st /\ heap st' = heap st /\ next_loc st' = next_loc st.

(** Well-formed references: the live deque and the cached view are
    allocated, distinct objects, and a cached view holds what the live
    deque holds. *)
Definition wf st : Prop :=
  (_queue st < next_loc st)%nat /\
  forall v, view st = Some v ->
    (v < next_loc st)%nat /\ v <> _queue st /\
    heap st !! v = Some (contents st).

(** [v] refers to an allocated deque other than the live one, holding [l]. *)
Definition holds st (v : loc) l : Prop :=
  (v < next_loc st)%nat /\ v <> _queue st /\ heap st !! v = Some l.


(** No future is created and no waiter is added. *)
Definition shrinks st st' : Prop :=
  next_fut st' = next_fut st /\
  _putters st' `sublist_of` _putters st /\
  _getters st' `sublist_of` _getters st.

(** Every read through the cached property yields the items that the live
    deque holds. *)
Definition reads_current `{EqDecision T} (str_deque : list T -> string) st : Prop :=
  deref (snd (get_view st)) (fst (get_view st)) = contents st /\
  fst (__iter__ st) = contents st /\
  (forall item, fst (__contains__ item st) = bool_decide (item ∈ contents st)) /\
  fst (__str__ str_deque st) = str_deque (contents st).

End Scripts.

(** ** Scenarios *)

(** Capacity 1, one item, and a producer suspended in [put]. *)
Definition blocked_producer : state Z :=
  run [OpPut 1; OpPut 2] (new_queue 1).

(** Capacity 1, no item, and a consumer suspended in [get]. *)
Definition blocked_consumer : state Z :=
  run [OpGet] (new_queue 1).

(** Capacity 1.  Two [unshift]s suspend on the full queue (futures 0 and
    1); [get_nowait] frees the slot and wakes future 0; [put_nowait] takes
    the slot before the woken task runs; the woken task is then cancelled. *)
Definition woken_then_refilled : state Z :=
  run [OpPutNowait 5; OpUnshift 6; OpUnshift 7; OpGetNowait; OpPutNowait 8;
       OpCancel 0%nat] (new_queue 1).

(** Capacity 1.  As above up to the [get_nowait]: future 0 has its result,
    the slot is free, and the task that awaits future 0 is cancelled. *)
Definition woken_then_cancelled : state Z :=
  run [OpPutNowait 5; OpUnshift 6; OpUnshift 7; OpGetNowait; OpCancel 0%nat]
      (new_queue 1).

(** ** More of ObservableAsyncQueue *)

(** Python's index into a sequence of length [len]: a negative index counts
    from the end; [None] stands for [IndexError]. *)
Definition py_index (len : nat) (i : Z) : option nat :=
  if (0 <=? i) && (i <? Z.of_nat len) then Some (Z.to_nat i)
  else if (i <? 0) && (- Z.of_nat len <=? i) then Some (Z.to_nat (Z.of_nat len + i))
  else None.

(** [seq[i]] on a list or a deque. *)
Definition py_getitem {A} (l : list A) (i : Z) : exn + A :=
  match py_index (length l) i with
  | Some n => match l !! n with Some x => inr x | None => inl IndexError end
  | None => inl IndexError
  end.

(** [ObservableAsyncQueue.__getitem__]: [self.view[item]]. *)
Definition __getitem__ {T} (item : Z) : coro T T := fun st =>
  let '(v, st1) := get_view st in
  match py_getitem (deref st1 v) item with
  | inr x => Returned x st1
  | inl e => Raised e st1
  end.

(** Segments that insert through [put] or [put_nowait]. *)
Definition is_put {T} (o : op T) : bool :=
  match o with OpPut _ | OpPutNowait _ => true | _ => false end.

(** * The plain containers *)

(** [KeyError], raised by [dict.pop] and [del d[k]] on a missing key. *)
Inductive key_error := KeyError.

(** ** OrderedDict, as far as the containers use it: an association list
    in insertion order, each key once. *)
Module OrderedDict.
Section OrderedDict.

Context {K V : Type} `{EqDecision K}.

(** [d[k] = v]: a key that is present keeps its place. *)
Fixpoint setitem (k : K) (v : V) (d : list (K * V)) : list (K * V) :=
  match d with
  | [] => [(k, v)]
  | (k', v') :: d' =>
      if decide (k = k') then (k, v) :: d' else (k', v') :: setitem k v d'
  end.

(** [d.get(k)] *)
Fixpoint get (k : K) (d : list (K * V)) : option V :=
  match d with
  | [] => None
  | (k', v') :: d' => if decide (k = k') then Some v' else get k d'
  end.

(** The dictionary without the key [k]. *)
Fixpoint remove (k : K) (d : list (K * V)) : list (K * V) :=
  match d with
  | [] => []
  | (k', v') :: d' => if decide (k = k') then d' else (k', v') :: remove k d'
  end.

Definition keys (d : list (K * V)) : list K := d.*1.

End OrderedDict.
End OrderedDict.

(** ** OrderedSet and MutableOrderedSet *)
Module OrderedSet.
Section OrderedSet.

Context {A : Type} `{EqDecision A}.

(** [_dict] maps every element to [None]; only its keys are kept here. *)
Record t := mk { _dict : list (A * unit) }.

Definition __init__ (iterable : option (list A)) : t :=
  match iterable with
  | Some (k :: ks) =>
      mk (foldl (fun d k => OrderedDict.setitem k tt d) [] (k :: ks))
  | _ => mk []
  end.

Definition __iter__ (s : t) : list A := OrderedDict.keys (_dict s).

Definition __contains__ (x : A) (s : t) : bool :=
  bool_decide (x ∈ OrderedDict.keys (_dict s)).

Definition __len__ (s : t) : nat := length (_dict s).

Definition __getitem__ (index : Z) (s : t) : exn + A :=
  py_getitem (OrderedDict.keys (_dict s)) index.

End OrderedSet.
Global Arguments t : clear implicits.
End OrderedSet.

Module MutableOrderedSet.
Section MutableOrderedSet.

Context {A : Type} `{EqDecision A}.

(** [self._dict[x] = None] *)
Definition add (x : A) (s : OrderedSet.t A) : OrderedSet.t A :=
  OrderedSet.mk (OrderedDict.setitem x tt (OrderedSet._dict s)).

(** [self._dict.pop(x)]: [dict.pop] without a default raises [KeyError]
    on a missing key. *)
Definition discard (x : A) (s : OrderedSet.t A) : key_error + OrderedSet.t A :=
  match OrderedDict.get x (OrderedSet._dict s) with
  | Some _ => inr (OrderedSet.mk (OrderedDict.remove x (OrderedSet._dict s)))
  | None => inl KeyError
  end.

End MutableOrderedSet.
End MutableOrderedSet.

(** ** _FifoFiloBase, Stack, Queue and Deque *)
Module FifoFiloBase.
Section FifoFiloBase.

Context {A : Type}.

Record t := mk { _deque : list A }.

Definition __init__ (items : option (list A)) : t :=
  match items with
  | Some (x :: l) => mk ([] ++ x :: l)
  | _ => mk []
  end.

Definition __getitem__ (index : Z) (s : t) : exn + A :=
  py_getitem (_deque s) index.

(** [self._deque[index] = value] *)
Definition __setitem__ (index : Z) (value : A) (s : t) : exn + t :=
  match py_index (length (_deque s)) index with
  | Some n => inr (mk (<[n := value]> (_deque s)))
  | None => inl IndexError
  end.

Definition __len__ (s : t) : nat := length (_deque s).

Definition __iter__ (s : t) : list A := _deque s.

Definition __contains__ `{EqDecision A} (x : A) (s : t) : bool :=
  bool_decide (x ∈ _deque s).

(** [__reversed__] reverses the object in place and returns [None]. *)
Definition __reversed__ (s : t) : t := mk (reverse (_deque s)).

Definition __bool__ (s : t) : bool :=
  match _deque s with [] => false | _ => true end.

End FifoFiloBase.
Global Arguments t : clear implicits.
End FifoFiloBase.

Module Stack.
Section Stack.

Context {A : Type}.

Definition push (x : A) (s : FifoFiloBase.t A) : A * FifoFiloBase.t A :=
  (x, FifoFiloBase.mk (FifoFiloBase._deque s ++ [x])).

(** [list.pop()] *)
Definition pop (s : FifoFiloBase.t A) : exn + A * FifoFiloBase.t A :=
  match reverse (FifoFiloBase._deque s) with
  | [] => inl IndexError
  | x :: r => inr (x, FifoFiloBase.mk (reverse r))
  end.

End Stack.
End Stack.

Module Queue.
Section Queue.

Context {A : Type}.

Definition enqueue (x : A) (s : FifoFiloBase.t A) : A * FifoFiloBase.t A :=
  (x, FifoFiloBase.mk (FifoFiloBase._deque s ++ [x])).

(** [list.pop(0)] *)
Definition dequeue (s : FifoFiloBase.t A) : exn + A * FifoFiloBase.t A :=
  match FifoFiloBase._deque s with
  | [] => inl IndexError
  | x :: l => inr (x, FifoFiloBase.mk l)
  end.

End Queue.
End Queue.

Module Deque.
Section Deque.

Context {A : Type}.

Definition shift (s : FifoFiloBase.t A) : exn + A * FifoFiloBase.t A :=
  match FifoFiloBase._deque s with
  | [] => inl IndexError
  | x :: l => inr (x, FifoFiloBase.mk l)
  end.

(** [list.insert(0, x)] *)
Definition unshift (x : A) (s : FifoFiloBase.t A) : A * FifoFiloBase.t A :=
  (x, FifoFiloBase.mk (x :: FifoFiloBase._deque s)).

End Deque.
End Deque.

(** Running a list of pushes, and popping [n] times, collecting the
    results; a pop that raises ends the run. *)
Fixpoint repeat_pop {A} (pop1 : FifoFiloBase.t A -> exn + A * FifoFiloBase.t A)
    (n : nat) (s : FifoFiloBase.t A) : exn + list A * FifoFiloBase.t A :=
  match n with
  | O => inr ([], s)
  | S n' =>
      match pop1 s with
      | inl e => inl e
      | inr (x, s') =>
          match repeat_pop pop1 n' s' with
          | inl e => inl e
          | inr (xs, s'') => inr (x :: xs, s'')
          end
      end
  end.

Definition push_all {A} (push1 : A -> FifoFiloBase.t A -> A * FifoFiloBase.t A)
    (xs : list A) (s : FifoFiloBase.t A) : FifoFiloBase.t A :=
  foldl (fun s x => snd (push1 x s)) s xs.

(** ** TwoWayDict *)
Module TwoWayDict.
Section TwoWayDict.

Context {K V : Type} `{EqDecision K} `{EqDecision V}.

(** A value of the dictionary: one that is iterated
    ([hasattr(v, "__iter__") and not isinstance(v, str)]), with the items
    it yields, or one that is used as it is. *)
Inductive value :=
  | Single (v : V)
  | Iterable (vs : list V).

Global Instance value_eq_dec : EqDecision value.
Proof. solve_decision. Defined.

(** The dictionary itself and the entry [_reversed_representation] of its
    [__dict__]. *)
Record t := mk {
  items : list (K * value);
  cache : option (list (V * K))
}.

(** The body of [_reversed_representation]. *)
Definition reverse_items (its : list (K * value)) : list (V * K) :=
  foldl (fun rev kv =>
           match snd kv with
           | Iterable vs =>
               foldl (fun rev sv => OrderedDict.setitem sv (fst kv) rev) rev vs
           | Single v => OrderedDict.setitem v (fst kv) rev
           end) [] its.

(** The cached property. *)
Definition _reversed_representation (d : t) : list (V * K) * t :=
  match cache d with
  | Some rev => (rev, d)
  | None => (reverse_items (items d), mk (items d) (Some (reverse_items (items d))))
  end.

Definition __reversed__ (d : t) : list (V * K) * t :=
  _reversed_representation d.

Definition __setitem__ (key : K) (v : value) (d : t) : t :=
  mk (OrderedDict.setitem key v (items d)) None.

(** [del d[key]], inherited from [OrderedDict]: [TwoWayDict] does not
    override it, so the cache is left alone. *)
Definition __delitem__ (key : K) (d : t) : key_error + t :=
  match OrderedDict.get key (items d) with
  | Some _ => inr (mk (OrderedDict.remove key (items d)) (cache d))
  | None => inl KeyError
  end.

(** [TwoWayDict()] *)
Definition empty : t := mk [] None.

(** What a user does to the dictionary and its reverse. *)
Inductive op :=
  | SetItem (key : K) (v : value)
  | Reversed.

Definition exec (o : op) (d : t) : t :=
  match o with
  | SetItem key v => __setitem__ key v d
  | Reversed => snd (__reversed__ d)
  end.

(** [sv] is a key that the reverse gets from the value [v]. *)
Definition yields (sv : V) (v : value) : bool :=
  match v with
  | Single x => bool_decide (x = sv)
  | Iterable vs => bool_decide (sv ∈ vs)
  end.

End TwoWayDict.
Global Arguments value : clear implicits.
Global Arguments t : clear implicits.
Global Arguments op : clear implicits.
End TwoWayDict.

(** ** A producer task and a consumer task on one queue

    The producer awaits [put] for each item of [todo] in turn; the
    consumer awaits [get] [wanted] times and collects what it gets.  A task
    is either at the head of its current call or suspended on the future
    that the call appended to the waiters; a suspended task runs again
    once its future has a result, and then re-enters the loop of the call.
    Which of the two tasks runs next is not fixed. *)
Inductive status :=
  | Ready
  | Waiting (f : fut).

Inductive task := Producer | Consumer.

Record tasks (T : Type) := mkTasks {
  queue : state T;
  todo : list T;
  producer : status;
  wanted : nat;
  consumer : status;
  results : list T
}.

Global Arguments mkTasks {T} queue todo producer wanted consumer results.
Global Arguments queue {T} t.
Global Arguments todo {T} t.
Global Arguments producer {T} t.
Global Arguments wanted {T} t.
Global Arguments consumer {T} t.
Global Arguments results {T} t.

Definition runnable {T} (st : state T) (s : status) : bool :=
  match s with
  | Ready => true
  | Waiting f => bool_decide (future_state st f = FINISHED)
  end.

(** One segment of a task; [None] when the task has returned or is
    suspended on a future without a result. *)
Definition step {T} (t : task) (s : tasks T) : option (tasks T) :=
  match t with
  | Producer =>
      match todo s with
      | [] => None
      | item :: rest =>
          if runnable (queue s) (producer s) then
            match put item (queue s) with
            | Returned _ st' =>
                Some (mkTasks st' rest Ready (wanted s) (consumer s) (results s))
            | Suspended f st' =>
                Some (mkTasks st' (todo s) (Waiting f) (wanted s) (consumer s)
                              (results s))
            | Raised _ _ => None
            end
          else None
      end
  | Consumer =>
      match wanted s with
      | O => None
      | S n =>
          if runnable (queue s) (consumer s) then
            match get (queue s) with
            | Returned item st' =>
                Some (mkTasks st' (todo s) (producer s) n Ready
                              (results s ++ [item]))
            | Suspended f st' =>
                Some (mkTasks st' (todo s) (producer s) (wanted s) (Waiting f)
                              (results s))
            | Raised _ _ => None
            end
          else None
      end
  end.

(** A schedule names the task of each segment; it is followed only as
    long as the named task can run. *)
Fixpoint run_schedule {T} (sched : list task) (s : tasks T) : option (tasks T) :=
  match sched with
  | [] => Some s
  | t :: sched' =>
      match step t s with
      | Some s' => run_schedule sched' s'
      | None => None
      end
  end.

(** [put(a); put(b); put(c)] in one task and three [get()]s in another. *)
Definition put3_and_get3 {T} (st : state T) (a b c : T) : tasks T :=
  mkTasks st [a; b; c] Ready 3 Ready [].

(** What holds between the two tasks and the queue throughout a run that
    hands over the items [abc]. *)
Definition tasks_inv {T} (abc : list T) (s : tasks T) : Prop :=
  results s ++ contents (queue s) ++ todo s = abc /\
  (length (results s) + wanted s = length abc)%nat /\
  (_maxsize (queue s) <= 0 \/ qsize (queue s) <= _maxsize (queue s)) /\
  match producer s with
  | Ready => _putters (queue s) = []
  | Waiting f =>
      todo s <> [] /\ (f < next_fut (queue s))%nat /\
      ((future_state (queue s) f = PENDING /\ _putters (queue s) = [f] /\
        full (queue s) = true) \/
       (future_state (queue s) f = FINISHED /\ _putters (queue s) = [] /\
        full (queue s) = false))
  end /\
  match consumer s with
  | Ready => _getters (queue s) = []
  | Waiting g =>
      wanted s <> O /\ (g < next_fut (queue s))%nat /\
      ((future_state (queue s) g = PENDING /\ _getters (queue s) = [g] /\
        contents (queue s) = []) \/
       (future_state (queue s) g = FINISHED /\ _getters (queue s) = [] /\
        contents (queue s) <> []))
  end /\
  match producer s, consumer s with
  | Waiting f, Waiting g => f <> g
  | _, _ => True
  end.

(** Twice the calls still to complete, plus one for each task that is not
    suspended: every segment lowers it. *)
Definition tasks_measure {T} (s : tasks T) : nat :=
  2 * (length (todo s) + wanted s)
  + (match producer s with Ready => 1 | Waiting _ => 0 end)
  + (match consumer s with Ready => 1 | Waiting _ => 0 end).

(** * Properties *)

Section Frame.

Context {T : Type}.
Implicit Types (st : state T) (l : list T) (x item : T).

Lemma same_deques_refl st : same_deques st st.
Proof. by repeat split. Qed.

Lemma same_deques_contents st st' : same_deques st st' -> contents st' = contents st.
Proof. intros (_ & Hq & _ & Hh & _). unfold contents. by rewrite Hq, Hh. Qed.

Lemma contents_deque_write l st : contents (deque_write l st) = l.
Proof. unfold contents, deque_write; simpl. by rewrite lookup_insert_eq. Qed.

Lemma contents_invalidate st : contents (invalidate st) = contents st.
Proof. reflexivity. Qed.

Lemma mutated_write l st : mutated st (invalidate (deque_write l st)) l.
Proof.
  unfold mutated. rewrite contents_invalidate, contents_deque_write.
  repeat split; simpl. intros v Hv. by rewrite lookup_insert_ne.
Qed.

Lemma same_deques_set_waiters g p fs st : same_deques st (set_waiters g p fs st).
Proof. by repeat split. Qed.

Lemma same_deques_wakeup_getters st : same_deques st (_wakeup_next_getters st).
Proof.
  unfold _wakeup_next_getters. destruct (wakeup _ _). apply same_deques_set_waiters.
Qed.

Lemma same_deques_wakeup_putters st : same_deques st (_wakeup_next_putters st).
Proof.
  unfold _wakeup_next_putters. destruct (wakeup _ _). apply same_deques_set_waiters.
Qed.

Lemma same_deques_cancel f st : same_deques st (future_cancel f st).
Proof.
  unfold future_cancel. destruct (future_done st f);
    [apply same_deques_refl | apply same_deques_set_waiters].
Qed.

Lemma same_deques_trans st1 st2 st3 :
  same_deques st1 st2 -> same_deques st2 st3 -> same_deques st1 st3.
Proof.
  intros (?&?&?&?&?) (?&?&?&?&?). repeat split; congruence.
Qed.

Lemma mutated_same st st1 st2 l :
  mutated st st1 l -> same_deques st1 st2 -> mutated st st2 l.
Proof.
  intros (Hc & Hm & Hq & Hv & Hn & Hh) Hs.
  pose proof (same_deques_contents _ _ Hs) as Hc'.
  destruct Hs as (?&?&?&Hh'&?).
  repeat split; try congruence. intros v Hne. rewrite Hh'. by apply Hh.
Qed.

Lemma same_deques_full st st' : same_deques st st' -> full st' = full st.
Proof.
  intros Hs. unfold full, qsize. rewrite (same_deques_contents _ _ Hs).
  destruct Hs as (-> & _). reflexivity.
Qed.

Lemma same_deques_empty st st' : same_deques st st' -> empty st' = empty st.
Proof. intros Hs. unfold empty. by rewrite (same_deques_contents _ _ Hs). Qed.

(** Suspending changes no deque. *)
Lemma wait_putter_same {R} st :
  exists f st', @wait_putter T R st = Suspended f st' /\ same_deques st st'.
Proof. unfold wait_putter; simpl. eexists _, _. split; [reflexivity|]. by repeat split. Qed.

Lemma wait_getter_same {R} st :
  exists f st', @wait_getter T R st = Suspended f st' /\ same_deques st st'.
Proof. unfold wait_getter; simpl. eexists _, _. split; [reflexivity|]. by repeat split. Qed.

(** ** What each completed operation does to the deque *)

Lemma put_nowait_spec item st :
  full st = false ->
  exists st', put_nowait item st = Returned tt st' /\
              mutated st st' (contents st ++ [item]).
Proof.
  intros Hf. unfold put_nowait, _put, base_put. rewrite Hf.
  eexists. split; [reflexivity|].
  eapply mutated_same; [|apply same_deques_wakeup_getters].
  destruct (mutated_write (contents st ++ [item]) st) as (?&?&?&?&?&?).
  by repeat split.
Qed.

Lemma put_spec item st :
  full st = false ->
  exists st', put item st = Returned tt st' /\
              mutated st st' (contents st ++ [item]).
Proof. intros Hf. unfold put. rewrite Hf. by apply put_nowait_spec. Qed.

Lemma put_full item st :
  full st = true ->
  exists f st', put item st = Suspended f st' /\ same_deques st st'.
Proof. intros Hf. unfold put. rewrite Hf. apply wait_putter_same. Qed.

Lemma get_nowait_spec x l st :
  contents st = x :: l ->
  exists st', get_nowait st = Returned x st' /\ mutated st st' l.
Proof.
  intros Hc. unfold get_nowait, empty, _get, base_get. rewrite Hc.
  eexists. split; [reflexivity|].
  eapply mutated_same; [apply mutated_write | apply same_deques_wakeup_putters].
Qed.

Lemma get_spec x l st :
  contents st = x :: l ->
  exists st', get st = Returned x st' /\ mutated st st' l.
Proof.
  intros Hc. unfold get, empty. rewrite Hc.
  by apply get_nowait_spec.
Qed.

Lemma get_empty st :
  contents st = [] ->
  exists f st', get st = Suspended f st' /\ same_deques st st'.
Proof. intros Hc. unfold get, empty. rewrite Hc. apply wait_getter_same. Qed.

Lemma unshift_spec item st :
  full st = false ->
  exists st', unshift item st = Returned item st' /\
              mutated st st' (item :: contents st).
Proof.
  intros Hf. unfold unshift. rewrite Hf.
  eexists. split; [reflexivity | apply mutated_write].
Qed.

Lemma unshift_full item st :
  full st = true ->
  exists f st', unshift item st = Suspended f st' /\ same_deques st st'.
Proof. intros Hf. unfold unshift. rewrite Hf. apply wait_putter_same. Qed.

Lemma pop_spec x l st :
  contents st = l ++ [x] ->
  exists st', pop st = Returned x st' /\ mutated st st' l.
Proof.
  intros Hc. unfold pop. rewrite Hc, reverse_app. simpl.
  rewrite reverse_involutive.
  eexists. split; [reflexivity | apply mutated_write].
Qed.

Lemma pop_empty st : contents st = [] -> pop st = Raised IndexError st.
Proof. intros Hc. unfold pop. by rewrite Hc. Qed.

Lemma full_false_iff st :
  full st = false <-> (_maxsize st <= 0 \/ qsize st < _maxsize st).
Proof.
  unfold full. destruct (Z.leb_spec (_maxsize st) 0).
  - split; [lia | done].
  - destruct (Z.leb_spec (_maxsize st) (qsize st)); split; try done; lia.
Qed.

Lemma mutated_full st st' l :
  mutated st st' l ->
  full st' = false <-> (_maxsize st <= 0 \/ Z.of_nat (length l) < _maxsize st).
Proof.
  intros (Hc & Hm & _). rewrite full_false_iff. unfold qsize.
  by rewrite Hc, Hm.
Qed.

Lemma mutated_maxsize st st' l : mutated st st' l -> _maxsize st' = _maxsize st.
Proof. by intros (_ & ? & _). Qed.

Lemma mutated_contents st st' l : mutated st st' l -> contents st' = l.
Proof. by intros (? & _). Qed.

(** A [put] or an [unshift] either completes, on a queue that is not full,
    or suspends. *)
Lemma put_cases item st :
  (full st = false /\ exists st', put item st = Returned tt st' /\
                                  mutated st st' (contents st ++ [item])) \/
  (full st = true /\ exists f st', put item st = Suspended f st').
Proof.
  destruct (full st) eqn:Hf; [right | left]; split; try done.
  - destruct (put_full item st Hf) as (f & st' & ? & _). eauto.
  - by apply put_spec.
Qed.

Lemma unshift_cases item st :
  (full st = false /\ exists st', unshift item st = Returned item st' /\
                                  mutated st st' (item :: contents st)) \/
  (full st = true /\ exists f st', unshift item st = Suspended f st').
Proof.
  destruct (full st) eqn:Hf; [right | left]; split; try done.
  - destruct (unshift_full item st Hf) as (f & st' & ? & _). eauto.
  - by apply unshift_spec.
Qed.

End Frame.

Section Order.

Context {T : Type}.
Implicit Types (st : state T) (l : list T).

(** Three puts and three gets by one task, from any contents: when the
    script completes, it returns the first three items of the old contents
    followed by the three new items. *)
Lemma put3_get3_general st a b c r st' :
  put3_get3 a b c st = Returned r st' ->
  r = take 3 (contents st ++ [a; b; c]).
Proof.
  unfold put3_get3, bind.
  destruct (put_cases a st) as [(_ & s1 & -> & M1) | (_ & f & s1 & ->)]; [|done].
  destruct (put_cases b s1) as [(_ & s2 & -> & M2) | (_ & f & s2 & ->)]; [|done].
  destruct (put_cases c s2) as [(_ & s3 & -> & M3) | (_ & f & s3 & ->)]; [|done].
  rewrite (mutated_contents _ _ _ M1) in M2.
  rewrite (mutated_contents _ _ _ M2) in M3.
  apply mutated_contents in M3. rewrite <- !app_assoc in M3. simpl in M3.
  destruct (contents st) as [|x0 [|x1 [|x2 q]]]; simpl in M3.
  all: destruct (get_spec _ _ _ M3) as (s4 & -> & M4); apply mutated_contents in M4.
  all: destruct (get_spec _ _ _ M4) as (s5 & -> & M5); apply mutated_contents in M5.
  all: destruct (get_spec _ _ _ M5) as (s6 & -> & M6).
  all: unfold ret; intros [= <- _]; reflexivity.
Qed.

(** Enough room for three more items makes the script complete. *)
Lemma put3_get3_completes st a b c :
  _maxsize st <= 0 \/ qsize st + 3 <= _maxsize st ->
  exists r st', put3_get3 a b c st = Returned r st'.
Proof.
  intros Hcap. unfold put3_get3, bind.
  assert (H0 : full st = false) by (apply full_false_iff; lia).
  destruct (put_spec a st H0) as (s1 & -> & M1).
  assert (H1 : full s1 = false).
  { apply (mutated_full _ _ _ M1). rewrite length_app. simpl. unfold qsize in Hcap. lia. }
  destruct (put_spec b s1 H1) as (s2 & -> & M2).
  rewrite (mutated_contents _ _ _ M1) in M2.
  assert (H2 : full s2 = false).
  { apply (mutated_full _ _ _ M2). rewrite !length_app. simpl.
    rewrite (mutated_maxsize _ _ _ M1). unfold qsize in Hcap. lia. }
  destruct (put_spec c s2 H2) as (s3 & -> & M3).
  rewrite (mutated_contents _ _ _ M2) in M3.
  apply mutated_contents in M3. rewrite <- !app_assoc in M3. simpl in M3.
  destruct (contents st) as [|x0 [|x1 [|x2 q]]]; simpl in M3.
  all: destruct (get_spec _ _ _ M3) as (s4 & -> & M4); apply mutated_contents in M4.
  all: destruct (get_spec _ _ _ M4) as (s5 & -> & M5); apply mutated_contents in M5.
  all: destruct (get_spec _ _ _ M5) as (s6 & -> & M6).
  all: unfold ret; eauto.
Qed.

(** C7 (double-ended symmetry).  With room for two more items, two
    [unshift]s followed by two [get]s return the items in reverse order of
    insertion, and so do two [put]s followed by two [pop]s; either script
    leaves the contents as they were. *)
Theorem double_ended_symmetry st a b :
  _maxsize st <= 0 \/ qsize st + 2 <= _maxsize st ->
  (exists st', unshift2_get2 a b st = Returned [b; a] st' /\
               contents st' = contents st) /\
  (exists st', put2_pop2 a b st = Returned [b; a] st' /\
               contents st' = contents st).
Proof.
  intros Hcap. unfold qsize in Hcap.
  assert (H0 : full st = false) by (apply full_false_iff; unfold qsize; lia).
  split.
  - unfold unshift2_get2, bind.
    destruct (unshift_spec a st H0) as (s1 & -> & M1).
    assert (H1 : full s1 = false).
    { apply (mutated_full _ _ _ M1). simpl. lia. }
    destruct (unshift_spec b s1 H1) as (s2 & -> & M2).
    rewrite (mutated_contents _ _ _ M1) in M2. apply mutated_contents in M2.
    destruct (get_spec _ _ _ M2) as (s3 & -> & M3). apply mutated_contents in M3.
    destruct (get_spec _ _ _ M3) as (s4 & -> & M4). apply mutated_contents in M4.
    unfold ret. eauto.
  - unfold put2_pop2, bind.
    destruct (put_spec a st H0) as (s1 & -> & M1).
    assert (H1 : full s1 = false).
    { apply (mutated_full _ _ _ M1). rewrite length_app. simpl. lia. }
    destruct (put_spec b s1 H1) as (s2 & -> & M2).
    rewrite (mutated_contents _ _ _ M1) in M2. apply mutated_contents in M2.
    destruct (pop_spec _ _ _ M2) as (s3 & -> & M3). apply mutated_contents in M3.
    destruct (pop_spec _ _ _ M3) as (s4 & -> & M4). apply mutated_contents in M4.
    unfold ret. eauto.
Qed.

End Order.

Section Misuse.

Context {T : Type}.
Implicit Types (st : state T).

(** C10.  Indexed assignment is rejected in every state, for every index
    and value: [__setitem__] raises [NotImplementedError] and the queue
    object is left as it was, contents and cached view included. *)
Theorem setitem_rejected st (i : Z) (v : T) :
  __setitem__ i v st = Raised NotImplementedError st /\
  contents (state_of (__setitem__ i v st)) = contents st /\
  view (state_of (__setitem__ i v st)) = view st /\
  heap (state_of (__setitem__ i v st)) = heap st.
Proof. by repeat split. Qed.

End Misuse.

(** ** Invariants of every interleaving *)

Section Interleavings.

Context {T : Type}.
Implicit Types (st : state T) (l : list T) (o : op T) (ops : list (op T)).

Lemma except_same (st : state T) (f : fut) (waiters : state T -> list fut)
    (set : list fut -> state T -> state T) (cond : state T -> bool)
    (wake : state T -> state T) :
  (forall g s, same_deques s (set g s)) ->
  (forall s, same_deques s (wake s)) ->
  let st1 := future_cancel f st in
  let st2 := set (deque_remove f (waiters st1)) st1 in
  same_deques st (if cond st2 then wake st2 else st2).
Proof.
  intros Hset Hwake st1 st2.
  assert (same_deques st st2).
  { eapply same_deques_trans; [apply same_deques_cancel | apply Hset]. }
  destruct (cond st2); [|done].
  eapply same_deques_trans; [eassumption | apply Hwake].
Qed.

Lemma put_except_same f e st : same_deques st (state_of (put_except f e st)).
Proof.
  unfold put_except; simpl.
  apply (except_same st f (@_putters T) set_putters
           (fun s => negb (full s) && negb (future_cancelled s f))
           _wakeup_next_putters).
  - intros; apply same_deques_set_waiters.
  - apply same_deques_wakeup_putters.
Qed.

Lemma unshift_except_same f e st :
  same_deques st (state_of (unshift_except f e st)).
Proof.
  unfold unshift_except; simpl.
  apply (except_same st f (@_putters T) set_putters
           (fun s => negb (full s) && negb (future_cancelled s f))
           _wakeup_next_putters).
  - intros; apply same_deques_set_waiters.
  - apply same_deques_wakeup_putters.
Qed.

Lemma get_except_same f e st : same_deques st (state_of (get_except f e st)).
Proof.
  unfold get_except; simpl.
  apply (except_same st f (@_getters T) set_getters
           (fun s => negb (empty s) && negb (future_cancelled s f))
           _wakeup_next_getters).
  - intros; apply same_deques_set_waiters.
  - apply same_deques_wakeup_getters.
Qed.

(** The effect of one segment on the deques: none, a removal, an insertion
    on a queue that is not full, or a read of the view. *)
Lemma exec_cases o st :
  same_deques st (exec o st) \/
  (exists l, mutated st (exec o st) l /\
     ((length l < length (contents st))%nat \/
      (full st = false /\ length l = S (length (contents st))))) \/
  exec o st = snd (get_view st).
Proof.
  destruct o as [x|f e|x| |f e| |x|f e| | |i v|f]; cbn [exec].
  - destruct (put_cases x st) as [(Hf & s1 & -> & M) | (Hf & f & s1 & Hs)].
    + right; left. exists (contents st ++ [x]). split; [done|].
      right. split; [done|]. rewrite length_app. simpl. lia.
    + left. destruct (put_full x st Hf) as (f' & s' & -> & ?). done.
  - left. apply put_except_same.
  - destruct (full st) eqn:Hf.
    + left. unfold put_nowait. rewrite Hf. apply same_deques_refl.
    + destruct (put_nowait_spec x st Hf) as (s1 & -> & M).
      right; left. exists (contents st ++ [x]). split; [done|].
      right. split; [done|]. rewrite length_app. simpl. lia.
  - destruct (contents st) as [|x l] eqn:Hc.
    + left. destruct (get_empty st Hc) as (f & s1 & -> & ?). done.
    + destruct (get_spec x l st Hc) as (s1 & -> & M).
      right; left. exists l. split; [done|]. left. simpl. lia.
  - left. apply get_except_same.
  - destruct (contents st) as [|x l] eqn:Hc.
    + left. unfold get_nowait, empty. rewrite Hc. apply same_deques_refl.
    + destruct (get_nowait_spec x l st Hc) as (s1 & -> & M).
      right; left. exists l. split; [done|]. left. simpl. lia.
  - destruct (unshift_cases x st) as [(Hf & s1 & -> & M) | (Hf & f & s1 & Hs)].
    + right; left. exists (x :: contents st). split; [done|].
      right. by split.
    + left. destruct (unshift_full x st Hf) as (f' & s' & -> & ?). done.
  - left. apply unshift_except_same.
  - destruct (decide (contents st = [])) as [Hc|Hc].
    + left. rewrite (pop_empty st Hc). apply same_deques_refl.
    + destruct (exists_last Hc) as (l & x & Hl).
      destruct (pop_spec x l st Hl) as (s1 & -> & M).
      right; left. exists l. split; [done|]. left.
      rewrite Hl, length_app. simpl. lia.
  - by right; right.
  - left. apply same_deques_refl.
  - left. apply same_deques_cancel.
Qed.

Lemma get_view_maxsize st : _maxsize (snd (get_view st)) = _maxsize st.
Proof. unfold get_view. by destruct (view st). Qed.

Lemma get_view_contents st :
  wf st -> contents (snd (get_view st)) = contents st.
Proof.
  intros [Hq _]. unfold get_view. destruct (view st); [done|].
  unfold contents; simpl. rewrite lookup_insert_ne; [done | lia].
Qed.

Lemma exec_maxsize o st : _maxsize (exec o st) = _maxsize st.
Proof.
  destruct (exec_cases o st) as [(? & _) | [(l & M & _) | ->]]; [done | |].
  - by apply mutated_maxsize in M.
  - apply get_view_maxsize.
Qed.

Lemma run_maxsize ops st : _maxsize (run ops st) = _maxsize st.
Proof.
  revert st. induction ops as [|o ops IH]; intros st; simpl; [done|].
  by rewrite IH, exec_maxsize.
Qed.

Lemma run_app ops ops' st : run (ops ++ ops') st = run ops' (run ops st).
Proof. revert st. induction ops as [|o ops IH]; intros st; simpl; [done | apply IH]. Qed.

Lemma contents_new_queue c : contents (@new_queue T c) = [].
Proof. reflexivity. Qed.

Lemma wf_new_queue c : wf (@new_queue T c).
Proof. split; simpl; [lia | done]. Qed.

Lemma wf_get_view st : wf st -> wf (snd (get_view st)).
Proof.
  intros Hwf. pose proof (get_view_contents st Hwf) as Hc.
  unfold get_view in *.
  destruct (view st) as [v|] eqn:Hview; [done|].
  destruct Hwf as [Hq _]. simpl in *.
  split; simpl; [lia|].
  intros v [= <-]. rewrite Hc. repeat split; [lia | lia |].
  by rewrite lookup_insert_eq.
Qed.

Lemma wf_exec o st : wf st -> wf (exec o st).
Proof.
  intros Hwf.
  destruct (exec_cases o st) as [Hs | [(l & M & _) | ->]].
  - pose proof (same_deques_contents _ _ Hs) as Hc.
    destruct Hwf as [Hq Hv]. destruct Hs as (_ & Hq' & Hv' & Hh & Hn).
    split; [by rewrite Hq', Hn|].
    intros v Hview. rewrite Hq', Hn, Hh, Hc. apply Hv. by rewrite <- Hv'.
  - destruct Hwf as [Hq _]. destruct M as (_ & _ & Hq' & Hv' & Hn & _).
    split; [by rewrite Hq', Hn|]. intros v. by rewrite Hv'.
  - by apply wf_get_view.
Qed.

Lemma wf_run ops st : wf st -> wf (run ops st).
Proof.
  revert st. induction ops as [|o ops IH]; intros st Hwf; simpl; [done|].
  by apply IH, wf_exec.
Qed.

(** One segment keeps a bounded queue within its bound. *)
Lemma exec_bound o st :
  wf st -> 0 < _maxsize st -> qsize st <= _maxsize st ->
  qsize (exec o st) <= _maxsize st.
Proof.
  intros Hwf Hpos Hle.
  destruct (exec_cases o st) as [Hs | [(l & M & Hlen) | ->]].
  - unfold qsize. by rewrite (same_deques_contents _ _ Hs).
  - unfold qsize in *. rewrite (mutated_contents _ _ _ M).
    destruct Hlen as [Hlt | [Hf Hlen]]; [lia|].
    apply full_false_iff in Hf. unfold qsize in Hf. lia.
  - unfold qsize. by rewrite get_view_contents.
Qed.

Lemma run_bound ops st :
  wf st -> 0 < _maxsize st -> qsize st <= _maxsize st ->
  qsize (run ops st) <= _maxsize st.
Proof.
  revert st. induction ops as [|o ops IH]; intros st Hwf Hpos Hle; simpl; [done|].
  rewrite <- (exec_maxsize o st). apply IH.
  - by apply wf_exec.
  - by rewrite exec_maxsize.
  - rewrite exec_maxsize. by apply exec_bound.
Qed.

(** C5 (capacity invariant).  For a queue constructed with a finite
    capacity [c > 0], after every sequence of segments of [put], [get],
    [unshift], [pop], their cancellation handlers, the non-blocking
    variants and reads of the view, in any interleaving, the size is
    between [0] and [c]; in particular a [put] or an [unshift] that
    completes leaves at most [c] items. *)
Theorem capacity_invariant (c : Z) (st0 : state T) ops :
  0 < c ->
  Queue_init c = inr st0 ->
  0 <= qsize (run ops st0) <= c /\
  (forall item st', put item (run ops st0) = Returned tt st' -> qsize st' <= c) /\
  (forall item st', unshift item (run ops st0) = Returned item st' -> qsize st' <= c).
Proof.
  intros Hc [= <-].
  assert (Hrun : forall ops', qsize (run ops' (@new_queue T c)) <= c).
  { intros ops'. apply (run_bound ops' (new_queue c)); simpl; try lia.
    - apply wf_new_queue.
    - unfold qsize. rewrite contents_new_queue. simpl. lia. }
  split; [|split].
  - split; [unfold qsize; lia | apply Hrun].
  - intros item st' Hput.
    specialize (Hrun (ops ++ [OpPut item])).
    rewrite run_app in Hrun. simpl in Hrun. by rewrite Hput in Hrun.
  - intros item st' Hun.
    specialize (Hrun (ops ++ [OpUnshift item])).
    rewrite run_app in Hrun. simpl in Hrun. by rewrite Hun in Hrun.
Qed.

(** ** The snapshot *)

Lemma holds_exec o st v l : wf st -> holds st v l -> holds (exec o st) v l.
Proof.
  intros [Hq _] (Hlt & Hne & Hv).
  destruct (exec_cases o st) as [Hs | [(l' & M & _) | ->]].
  - destruct Hs as (_ & Hq' & _ & Hh & Hn). unfold holds.
    by rewrite Hq', Hh, Hn.
  - destruct M as (_ & _ & Hq' & _ & Hn & Hh). unfold holds.
    rewrite Hq', Hn, Hh; done.
  - unfold get_view. destruct (view st); [done|].
    unfold holds; simpl. repeat split; [lia | done |].
    rewrite lookup_insert_ne; [done | lia].
Qed.

Lemma holds_run ops st v l : wf st -> holds st v l -> holds (run ops st) v l.
Proof.
  revert st. induction ops as [|o ops IH]; intros st Hwf Hh; simpl; [done|].
  apply IH; [by apply wf_exec | by apply holds_exec].
Qed.

Lemma get_view_holds st :
  wf st -> holds (snd (get_view st)) (fst (get_view st)) (contents st).
Proof.
  intros [Hq Hv]. unfold get_view.
  destruct (view st) as [v|] eqn:Hview; simpl.
  - by apply Hv.
  - unfold holds; simpl. repeat split; [lia | lia |].
    by rewrite lookup_insert_eq.
Qed.

Lemma holds_deref st v l : holds st v l -> deref st v = l.
Proof. intros (_ & _ & Hv). unfold deref. by rewrite Hv. Qed.

Lemma reads_current_from_deref `{EqDecision T} str_deque st :
  deref (snd (get_view st)) (fst (get_view st)) = contents st ->
  reads_current str_deque st.
Proof.
  intros Hd. unfold reads_current, __iter__, __contains__, __str__.
  destruct (get_view st) as [v s1]; simpl in *. by rewrite Hd.
Qed.

Lemma reads_current_no_cache `{EqDecision T} str_deque st :
  view st = None -> reads_current str_deque st.
Proof.
  intros Hv. apply reads_current_from_deref.
  unfold get_view, deref. rewrite Hv. simpl. by rewrite lookup_insert_eq.
Qed.

(** In every state reached from a new queue the reads are current, with
    or without a cached view. *)
Lemma reads_current_reachable `{EqDecision T} str_deque c ops :
  reads_current str_deque (run ops (@new_queue T c)).
Proof.
  apply reads_current_from_deref, holds_deref, get_view_holds, wf_run, wf_new_queue.
Qed.

Lemma put_returned item st r st' :
  put item st = Returned r st' -> mutated st st' (contents st ++ [item]).
Proof.
  destruct (put_cases item st) as [(_ & s1 & -> & M) | (_ & f & s1 & ->)]; [|done].
  by intros [= _ <-].
Qed.

Lemma unshift_returned item st r st' :
  unshift item st = Returned r st' -> mutated st st' (item :: contents st).
Proof.
  destruct (unshift_cases item st) as [(_ & s1 & -> & M) | (_ & f & s1 & ->)]; [|done].
  by intros [= _ <-].
Qed.

Lemma get_returned st r st' :
  get st = Returned r st' -> exists l, contents st = r :: l /\ mutated st st' l.
Proof.
  destruct (contents st) as [|x l] eqn:Hc.
  - destruct (get_empty st Hc) as (f & s1 & -> & _). done.
  - destruct (get_spec x l st Hc) as (s1 & -> & M). intros [= <- <-]. eauto.
Qed.

Lemma pop_returned st r st' :
  pop st = Returned r st' -> exists l, contents st = l ++ [r] /\ mutated st st' l.
Proof.
  destruct (decide (contents st = [])) as [Hc|Hc].
  - by rewrite (pop_empty st Hc).
  - destruct (exists_last Hc) as (l & x & Hl).
    destruct (pop_spec x l st Hl) as (s1 & -> & M). intros [= <- <-]. eauto.
Qed.

(** C8 (snapshot cache freshness).  When [put], [get], [unshift] or [pop]
    completes, the cached view has been dropped, so the next read through
    the view ([view], [__iter__], [__contains__], [__str__]) is computed
    from the contents that the queue has then. *)
Theorem snapshot_cache_fresh `{EqDecision T} (str_deque : list T -> string) st st' :
  (exists item, put item st = Returned tt st') \/
  (exists item, get st = Returned item st') \/
  (exists item, unshift item st = Returned item st') \/
  (exists item, pop st = Returned item st') ->
  view st' = None /\ reads_current str_deque st'.
Proof.
  intros Hop.
  assert (Hv : view st' = None).
  { destruct Hop as [(x & Hx) | [(x & Hx) | [(x & Hx) | (x & Hx)]]].
    - apply put_returned in Hx. by destruct Hx as (_ & _ & _ & ? & _).
    - apply get_returned in Hx as (l & _ & M). by destruct M as (_ & _ & _ & ? & _).
    - apply unshift_returned in Hx. by destruct Hx as (_ & _ & _ & ? & _).
    - apply pop_returned in Hx as (l & _ & M). by destruct M as (_ & _ & _ & ? & _). }
  split; [done | by apply reads_current_no_cache].
Qed.

(** C9 (snapshot view immutability).  A view obtained from a queue, in any
    state that a new queue can reach, holds the contents that the queue had
    when the view was handed out, and it still holds exactly those items
    after any further sequence of queue operations. *)
Theorem view_immutable (c : Z) (st0 : state T) ops1 ops2 (v : loc) st1 :
  Queue_init c = inr st0 ->
  get_view (run ops1 st0) = (v, st1) ->
  v <> _queue st1 /\
  deref st1 v = contents (run ops1 st0) /\
  deref (run ops2 st1) v = contents (run ops1 st0).
Proof.
  intros [= <-] Hview.
  assert (Hwf : wf (run ops1 (@new_queue T c))) by apply wf_run, wf_new_queue.
  pose proof (get_view_holds _ Hwf) as Hh.
  pose proof (wf_get_view _ Hwf) as Hwf1.
  rewrite Hview in Hh, Hwf1. simpl in Hh, Hwf1.
  split; [by destruct Hh as (_ & ? & _)|].
  split; [by apply holds_deref|].
  by apply holds_deref, holds_run.
Qed.

(** ** Construction *)

(** Construction with capacity [0] raises nothing, so it is not the case
    that every non-positive capacity is refused. *)
Lemma Queue_init_nonpositive_accepted :
  ~ (forall c : Z, c <= 0 -> exists e : exn, @Queue_init Z c = inl e).
Proof. intros H. destruct (H 0) as [e He]; [lia | discriminate He]. Qed.

(** C4, as the code has it.  For every capacity [c <= 0] the constructor
    returns an empty queue and raises nothing; the queue is unbounded: it
    is never full, and [put] and [unshift] complete without suspending in
    every state it reaches. *)
Theorem nonpositive_capacity_unbounded (c : Z) ops :
  c <= 0 ->
  exists st0 : state T,
    Queue_init c = inr st0 /\ contents st0 = [] /\
    full (run ops st0) = false /\
    (forall item, exists st', put item (run ops st0) = Returned tt st') /\
    (forall item, exists st', unshift item (run ops st0) = Returned item st').
Proof.
  intros Hc. exists (new_queue c). split; [done|]. split; [done|].
  assert (Hf : full (run ops (@new_queue T c)) = false).
  { apply full_false_iff. left. by rewrite run_maxsize. }
  split; [done|]. split; intros item.
  - destruct (put_spec item _ Hf) as (st' & ? & _). eauto.
  - destruct (unshift_spec item _ Hf) as (st' & ? & _). eauto.
Qed.

End Interleavings.

(** ** Waiters *)

Section Waiters.

Context {T : Type}.
Implicit Types (st : state T) (fs : gmap fut fstate) (ws pre rest : list fut).

Lemma wakeup_suffix fs ws : exists pre, ws = pre ++ (wakeup fs ws).2.
Proof.
  induction ws as [|w ws [pre IH]]; simpl; [by exists []|].
  destruct (fstate_done _).
  - exists (w :: pre). simpl. by rewrite <- IH.
  - by exists [w].
Qed.

(** [_wakeup_next] wakes the earliest waiter that is not done, and drops it
    and the done waiters before it from the deque. *)
Lemma wakeup_pending fs pre w rest :
  Forall (fun g => fstate_done (default PENDING (fs !! g)) = true) pre ->
  fstate_done (default PENDING (fs !! w)) = false ->
  wakeup fs (pre ++ w :: rest) = (<[w := FINISHED]> fs, rest).
Proof.
  intros Hpre Hw. induction Hpre as [|g pre Hg _ IH]; simpl.
  - by rewrite Hw.
  - by rewrite Hg.
Qed.

Lemma wakeup_all_done fs ws :
  Forall (fun g => fstate_done (default PENDING (fs !! g)) = true) ws ->
  wakeup fs ws = (fs, []).
Proof.
  intros Hws. induction Hws as [|g ws Hg _ IH]; simpl; [done|]. by rewrite Hg.
Qed.

Lemma deque_remove_subseteq f ws g : g ∈ deque_remove f ws -> g ∈ ws.
Proof.
  induction ws as [|w ws IH]; simpl; [done|].
  destruct (decide (f = w)); rewrite !elem_of_cons; [by right|].
  intros [-> | Hg]; [by left | right; by apply IH].
Qed.

Lemma deque_remove_NoDup f ws : NoDup ws -> f ∉ deque_remove f ws.
Proof.
  induction 1 as [|w ws Hw Hnd IH]; simpl; [apply not_elem_of_nil|].
  destruct (decide (f = w)) as [->|Hne]; [done|].
  rewrite elem_of_cons. by intros [? | ?].
Qed.

Lemma deque_remove_absent f ws : f ∉ ws -> deque_remove f ws = ws.
Proof.
  induction ws as [|w ws IH]; simpl; [done|].
  rewrite elem_of_cons. intros Hf.
  destruct (decide (f = w)) as [->|Hne]; [by destruct Hf; left|].
  f_equal. apply IH. by intros ?; apply Hf; right.
Qed.

Lemma future_cancel_pending f st :
  future_state st f = PENDING ->
  future_cancel f st = set_futures (<[f := CANCELLED]> (futures st)) st.
Proof. intros Hf. unfold future_cancel, future_done. by rewrite Hf. Qed.

Lemma future_cancel_done f st :
  future_state st f <> PENDING -> future_cancel f st = st.
Proof.
  intros Hf. unfold future_cancel, future_done.
  by destruct (future_state st f).
Qed.

Lemma future_cancel_putters f st : _putters (future_cancel f st) = _putters st.
Proof. unfold future_cancel. by destruct (future_done st f). Qed.

Lemma future_cancel_getters f st : _getters (future_cancel f st) = _getters st.
Proof. unfold future_cancel. by destruct (future_done st f). Qed.

(** After [putter.cancel()] the future is cancelled unless it had a
    result; other futures keep their state. *)
Lemma future_cancel_state f st :
  future_state (future_cancel f st) f =
    (if decide (future_state st f = FINISHED) then FINISHED else CANCELLED) /\
  forall g, g <> f -> future_state (future_cancel f st) g = future_state st g.
Proof.
  destruct (future_state st f) eqn:Hf.
  - rewrite (future_cancel_pending f st Hf). unfold future_state; simpl.
    rewrite lookup_insert_eq. split; [done|].
    intros g Hg. by rewrite lookup_insert_ne.
  - rewrite future_cancel_done by congruence. by rewrite Hf.
  - rewrite future_cancel_done by congruence. by rewrite Hf.
Qed.

(** The handler of [unshift] when the future had no result: the waiter is
    taken out of the deque and nobody is woken. *)
Lemma unshift_except_not_woken f e st :
  future_state st f <> FINISHED ->
  unshift_except f e st =
    Raised e (set_putters (deque_remove f (_putters st)) (future_cancel f st)).
Proof.
  intros Hf. unfold unshift_except. rewrite future_cancel_putters.
  set (st2 := set_putters _ _).
  assert (Hc : future_cancelled st2 f = true).
  { unfold future_cancelled. apply bool_decide_eq_true.
    change (future_state st2 f) with (future_state (future_cancel f st) f).
    destruct (future_cancel_state f st) as [-> _]. by rewrite decide_False. }
  by rewrite Hc, andb_false_r.
Qed.

(** The handler of [unshift] when the future had been given a result: the
    next waiter is woken if, and only if, the queue is not full. *)
Lemma unshift_except_woken f e st :
  future_state st f = FINISHED ->
  unshift_except f e st =
    Raised e (if full st
              then set_putters (deque_remove f (_putters st)) st
              else _wakeup_next_putters
                     (set_putters (deque_remove f (_putters st)) st)).
Proof.
  intros Hf. unfold unshift_except.
  rewrite future_cancel_done by congruence.
  set (st2 := set_putters _ _).
  assert (Hc : future_cancelled st2 f = false).
  { unfold future_cancelled. apply bool_decide_eq_false.
    change (future_state st2 f) with (future_state st f). congruence. }
  assert (Hfull : full st2 = full st).
  { apply same_deques_full, same_deques_set_waiters. }
  rewrite Hc, Hfull. by destruct (full st).
Qed.

Lemma shrinks_refl st : shrinks st st.
Proof. by split_and!. Qed.
















(** C3, as the code has it.  The [except:] clause of [unshift] re-raises
    the exception it caught, leaves the items and the consumer waiters as
    they were, and leaves the future out of the producer waiters.  When the
    future had not been given a result (cancelled before being woken) it
    ends up cancelled and no other future changes.  When it had been given
    a result, the wake is handed to the earliest pending producer waiter
    if the queue is not full, and to nobody if the queue is full again. *)
Theorem unshift_cancellation st (f : fut) (e : exn) :
  NoDup (_putters st) ->
  exists st',
    unshift_except f e st = Raised e st' /\
    contents st' = contents st /\ _getters st' = _getters st /\
    (f ∉ _putters st') /\
    (future_state st f <> FINISHED ->
       future_state st' f = CANCELLED /\
       _putters st' = deque_remove f (_putters st) /\
       forall g, g <> f -> future_state st' g = future_state st g) /\
    (future_state st f = FINISHED ->
       (futures st', _putters st') =
         (if full st then (futures st, deque_remove f (_putters st))
          else wakeup (futures st) (deque_remove f (_putters st)))) /\
    (future_state st f = FINISHED -> full st = false ->
       forall pre g rest,
         deque_remove f (_putters st) = pre ++ g :: rest ->
         Forall (fun h => future_done st h = true) pre ->
         future_done st g = false ->
         future_state st' g = FINISHED /\ _putters st' = rest).
Proof.
  intros Hnd.
  pose proof (deque_remove_NoDup f _ Hnd) as Hnotin.
  destruct (decide (future_state st f = FINISHED)) as [Hw|Hw].
  - rewrite (unshift_except_woken f e st Hw).
    eexists. split; [reflexivity|].
    destruct (full st) eqn:Hfull.
    + split_and!; done.
    + unfold _wakeup_next_putters. simpl.
      pose proof (wakeup_suffix (futures st) (deque_remove f (_putters st))) as [pre0 Hsuf].
      destruct (wakeup (futures st) (deque_remove f (_putters st))) as [fs' ws'] eqn:Hwk.
      simpl in *. split_and!; try done.
      * intros Hin. apply Hnotin. rewrite Hsuf. apply elem_of_app. by right.
      * intros _ _ pre g rest Hsplit Hpre Hg.
        rewrite Hsplit in Hwk. rewrite (wakeup_pending _ _ _ _ Hpre Hg) in Hwk.
        injection Hwk as <- <-. unfold future_state; simpl.
        by rewrite lookup_insert_eq.
  - rewrite (unshift_except_not_woken f e st Hw).
    eexists. split; [reflexivity|].
    destruct (future_cancel_state f st) as [Hf Hothers].
    rewrite decide_False in Hf by done.
    pose proof (same_deques_contents _ _ (same_deques_cancel f st)) as Hc.
    split_and!; try done.
    all: simpl; rewrite ?future_cancel_putters; try done.
    apply future_cancel_getters.
Qed.

(** On the claim as worded (a waiter that was woken and then cancelled
    always hands its wake to the next producer waiter): in
    [woken_then_refilled] future 0 has a result, future 1 is the next
    producer waiter and is pending, and after the handler of the task that
    awaited future 0 has run, future 1 is still pending. *)
Lemma unshift_cancel_full_no_forward :
  ~ (forall (st : state Z) (f g : fut) (e : exn) (rest : list fut),
       future_state st f = FINISHED ->
       deque_remove f (_putters st) = g :: rest ->
       future_state st g = PENDING ->
       future_state (state_of (unshift_except f e st)) g = FINISHED).
Proof.
  intros H.
  specialize (H woken_then_refilled 0%nat 1%nat CancelledError []
                eq_refl eq_refl eq_refl).
  vm_compute in H. discriminate H.
Qed.

(** [pop] and [unshift] leave waiters and futures alone. *)
Lemma pop_wakes_nobody st x st' :
  pop st = Returned x st' ->
  _putters st' = _putters st /\ _getters st' = _getters st /\
  futures st' = futures st.
Proof.
  unfold pop. destruct (reverse (contents st)); [done|].
  by intros [= _ <-].
Qed.

Lemma unshift_wakes_nobody st x r st' :
  unshift x st = Returned r st' ->
  _putters st' = _putters st /\ _getters st' = _getters st /\
  futures st' = futures st.
Proof.
  unfold unshift. destruct (full st); [done|]. by intros [= _ <-].
Qed.

(** A completed [put] wakes the earliest pending consumer waiter. *)
Lemma put_wakes_earliest_getter st x pre g rest :
  full st = false ->
  _getters st = pre ++ g :: rest ->
  Forall (fun h => future_done st h = true) pre ->
  future_done st g = false ->
  exists st', put x st = Returned tt st' /\
              future_state st' g = FINISHED /\ _getters st' = rest /\
              forall h, h <> g -> future_state st' h = future_state st h.
Proof.
  intros Hfull Hg Hpre Hpend.
  unfold put, put_nowait, _put. rewrite Hfull.
  eexists. split; [reflexivity|].
  unfold _wakeup_next_getters; simpl. rewrite Hg.
  rewrite (wakeup_pending _ _ _ _ Hpre Hpend). unfold future_state; simpl.
  rewrite lookup_insert_eq. repeat split.
  intros h Hh. by rewrite lookup_insert_ne.
Qed.

End Waiters.

(** ** The two methods without a gate, on the scenarios *)

(** C1, at two inputs.  On an empty queue [pop] raises [IndexError] where
    [get] suspends; on a full queue with a suspended producer [pop] returns
    the item and leaves the producer's future pending and queued although
    the queue is no longer full, where [get] gives that future its
    result. *)
Theorem pop_not_gated :
  pop (new_queue 1 : state Z) = Raised IndexError (new_queue 1) /\
  (exists f st', get (new_queue 1 : state Z) = Suspended f st') /\
  (_putters blocked_producer = [0%nat] /\
   future_state blocked_producer 0%nat = PENDING) /\
  (exists st', pop blocked_producer = Returned 1 st' /\
               full st' = false /\ _putters st' = [0%nat] /\
               future_state st' 0%nat = PENDING) /\
  (exists st', get blocked_producer = Returned 1 st' /\
               _putters st' = [] /\ future_state st' 0%nat = FINISHED).
Proof.
  split; [reflexivity|]. split; [by eexists _, _|]. split; [by split|].
  split; eexists; (split; [reflexivity|]); by vm_compute.
Qed.

(** C2, at one input.  With a consumer suspended on the empty queue,
    [unshift] inserts the item and returns while the consumer's future is
    still pending and queued; [put] on the same state gives that future its
    result. *)
Theorem unshift_no_wakeup :
  (_getters blocked_consumer = [0%nat] /\
   future_state blocked_consumer 0%nat = PENDING) /\
  (exists st', unshift 7 blocked_consumer = Returned 7 st' /\
               contents st' = [7] /\ _getters st' = [0%nat] /\
               future_state st' 0%nat = PENDING) /\
  (exists st', put 7 blocked_consumer = Returned tt st' /\
               contents st' = [7] /\ _getters st' = [] /\
               future_state st' 0%nat = FINISHED).
Proof.
  split; [by split|].
  split; eexists; (split; [reflexivity|]); by vm_compute.
Qed.

(** ** The theorems at concrete queues *)

Lemma double_ended_symmetry_witness :
  (_maxsize (new_queue 2 : state Z) <= 0 \/
   qsize (new_queue 2 : state Z) + 2 <= _maxsize (new_queue 2 : state Z)) /\
  (exists st', unshift2_get2 10 20 (new_queue 2 : state Z) = Returned [20; 10] st' /\
               contents st' = contents (new_queue 2 : state Z)) /\
  (exists st', put2_pop2 10 20 (new_queue 2 : state Z) = Returned [20; 10] st' /\
               contents st' = contents (new_queue 2 : state Z)).
Proof.
  split; [right; vm_compute; discriminate|].
  apply (double_ended_symmetry (new_queue 2) 10 20).
  right. vm_compute. discriminate.
Defined.

Lemma capacity_invariant_witness :
  0 < 1 /\ Queue_init 1 = inr (new_queue 1 : state Z) /\
  0 <= qsize (run [OpPut 1; OpPut 2; OpUnshift 3; OpPop; OpView]
                  (new_queue 1 : state Z)) <= 1.
Proof.
  split; [lia|]. split; [reflexivity|].
  apply (capacity_invariant 1 (new_queue 1)
           [OpPut 1; OpPut 2; OpUnshift 3; OpPop; OpView]); [lia | reflexivity].
Defined.

Lemma snapshot_cache_fresh_witness :
  (exists st', unshift 7 (snd (get_view (new_queue 2 : state Z))) = Returned 7 st' /\
               view st' = None /\ fst (__iter__ st') = contents st').
Proof.
  eexists. split; [reflexivity|].
  destruct (snapshot_cache_fresh (fun _ => EmptyString)
              (snd (get_view (new_queue 2 : state Z)))
              (state_of (unshift 7 (snd (get_view (new_queue 2 : state Z))))))
    as (Hv & _ & Hi & _).
  - right; right; left. exists 7. reflexivity.
  - split; [exact Hv | exact Hi].
Defined.

Lemma view_immutable_witness :
  Queue_init 2 = inr (new_queue 2 : state Z) /\
  deref (run [OpGet; OpUnshift 9; OpPop; OpView]
             (snd (get_view (run [OpPut 1; OpPut 2] (new_queue 2 : state Z)))))
        (fst (get_view (run [OpPut 1; OpPut 2] (new_queue 2 : state Z))))
    = contents (run [OpPut 1; OpPut 2] (new_queue 2 : state Z)).
Proof.
  split; [reflexivity|].
  apply (view_immutable 2 (new_queue 2 : state Z) [OpPut 1; OpPut 2]
           [OpGet; OpUnshift 9; OpPop; OpView] _ _
           eq_refl (surjective_pairing _)).
Defined.

Lemma nonpositive_capacity_unbounded_witness :
  -1 <= 0 /\
  exists st0 : state Z,
    Queue_init (-1) = inr st0 /\
    full (run [OpPut 1; OpPut 2; OpUnshift 3] st0) = false.
Proof.
  split; [lia|].
  destruct (nonpositive_capacity_unbounded (T := Z) (-1)
              [OpPut 1; OpPut 2; OpUnshift 3]) as (st0 & H0 & _ & Hf & _); [lia|].
  exists st0. split; [exact H0 | exact Hf].
Defined.

Lemma unshift_cancellation_witness :
  NoDup (_putters woken_then_cancelled) /\
  exists st',
    unshift_except 0%nat CancelledError woken_then_cancelled
      = Raised CancelledError st' /\
    contents st' = [] /\
    future_state st' 1%nat = FINISHED /\ _putters st' = [].
Proof.
  assert (Hnd : NoDup (_putters woken_then_cancelled)).
  { vm_compute. apply NoDup_singleton. }
  split; [exact Hnd|].
  destruct (unshift_cancellation woken_then_cancelled 0%nat CancelledError Hnd)
    as (st' & Hr & Hc & _ & _ & _ & _ & Hwake).
  exists st'. split; [exact Hr|]. split; [exact Hc|].
  apply (Hwake eq_refl eq_refl [] 1%nat []); [reflexivity | constructor | reflexivity].
Defined.

(** * The plain containers: properties *)

(** ** Python indexing *)

Lemma py_index_Some len i n :
  py_index len i = Some n ->
  (n < len)%nat /\ - Z.of_nat len <= i < Z.of_nat len /\
  ((0 <= i /\ n = Z.to_nat i) \/ (i < 0 /\ n = Z.to_nat (Z.of_nat len + i))).
Proof.
  unfold py_index.
  destruct (Z.leb_spec 0 i), (Z.ltb_spec i (Z.of_nat len)); simpl.
  all: try (intros [= <-]; split_and!; [lia | lia | lia | left; lia]).
  all: destruct (Z.ltb_spec i 0), (Z.leb_spec (- Z.of_nat len) i); simpl; try done.
  all: intros [= <-]; split_and!; [lia | lia | lia | right; lia].
Qed.

Lemma py_index_in_range len i :
  - Z.of_nat len <= i < Z.of_nat len ->
  py_index len i =
    Some (if decide (0 <= i) then Z.to_nat i else Z.to_nat (Z.of_nat len + i)).
Proof.
  intros Hi. unfold py_index.
  destruct (Z.leb_spec 0 i), (Z.ltb_spec i (Z.of_nat len)); simpl.
  all: try (case_decide; [done | lia]).
  all: destruct (Z.ltb_spec i 0), (Z.leb_spec (- Z.of_nat len) i); simpl; try lia.
  all: case_decide; [lia | done].
Qed.

Lemma py_index_out_of_range len i :
  ~ (- Z.of_nat len <= i < Z.of_nat len) -> py_index len i = None.
Proof.
  intros Hi. destruct (py_index len i) as [n|] eqn:Hn; [|done].
  apply py_index_Some in Hn. lia.
Qed.

Lemma py_getitem_in_range {A} (l : list A) i :
  - Z.of_nat (length l) <= i < Z.of_nat (length l) ->
  exists x, py_getitem l i = inr x /\
    l !! (if decide (0 <= i) then Z.to_nat i
          else Z.to_nat (Z.of_nat (length l) + i)) = Some x.
Proof.
  intros Hi. unfold py_getitem. rewrite (py_index_in_range _ _ Hi).
  set (n := if decide (0 <= i) then _ else _).
  destruct (lookup_lt_is_Some_2 l n) as [x Hx].
  { subst n. case_decide; lia. }
  exists x. by rewrite Hx.
Qed.

Lemma py_getitem_out_of_range {A} (l : list A) i :
  ~ (- Z.of_nat (length l) <= i < Z.of_nat (length l)) ->
  py_getitem l i = inl IndexError.
Proof. intros Hi. unfold py_getitem. by rewrite py_index_out_of_range. Qed.

(** Indexing the reversed list at [i] is indexing the list at [-1 - i],
    in range or out of range. *)
Lemma py_getitem_reverse {A} (l : list A) i :
  py_getitem (reverse l) i = py_getitem l (-1 - i).
Proof.
  destruct (decide (- Z.of_nat (length l) <= i < Z.of_nat (length l))) as [Hi|Hi].
  - destruct (py_getitem_in_range (reverse l) i) as (x & -> & Hx).
    { by rewrite length_reverse. }
    destruct (py_getitem_in_range l (-1 - i)) as (y & -> & Hy); [lia|].
    f_equal. rewrite length_reverse in Hx.
    assert (Some x = Some y) as [= ->]; [|done].
    rewrite <- Hx, <- Hy. clear Hx Hy.
    destruct (decide (0 <= i)), (decide (0 <= -1 - i)); try lia.
    all: rewrite reverse_lookup by lia; f_equal; lia.
  - rewrite !py_getitem_out_of_range; [done | lia | by rewrite length_reverse].
Qed.

(** ** _FifoFiloBase, Stack, Queue, Deque *)

Section FifoFilo.

Context {A : Type}.
Implicit Types (s : FifoFiloBase.t A) (xs l : list A) (x : A).

Lemma push_all_enqueue xs s :
  push_all Queue.enqueue xs s = FifoFiloBase.mk (FifoFiloBase._deque s ++ xs).
Proof.
  revert s. induction xs as [|x xs IH]; intros [l]; simpl.
  - by rewrite app_nil_r.
  - rewrite IH. simpl. by rewrite <- app_assoc.
Qed.

Lemma push_all_push xs s :
  push_all Stack.push xs s = FifoFiloBase.mk (FifoFiloBase._deque s ++ xs).
Proof.
  revert s. induction xs as [|x xs IH]; intros [l]; simpl.
  - by rewrite app_nil_r.
  - rewrite IH. simpl. by rewrite <- app_assoc.
Qed.

Lemma push_all_unshift xs s :
  push_all Deque.unshift xs s =
    FifoFiloBase.mk (reverse xs ++ FifoFiloBase._deque s).
Proof.
  revert s. induction xs as [|x xs IH]; intros [l]; simpl; [done|].
  rewrite IH. simpl. by rewrite reverse_cons, <- app_assoc.
Qed.

Lemma repeat_pop_S (pop1 : FifoFiloBase.t A -> exn + A * FifoFiloBase.t A) n s x s' :
  pop1 s = inr (x, s') ->
  repeat_pop pop1 (S n) s =
    match repeat_pop pop1 n s' with
    | inl e => inl e
    | inr (xs, s'') => inr (x :: xs, s'')
    end.
Proof. intros Hp. cbn [repeat_pop]. by rewrite Hp. Qed.

Lemma repeat_pop_raise (pop1 : FifoFiloBase.t A -> exn + A * FifoFiloBase.t A) n s e :
  pop1 s = inl e -> repeat_pop pop1 (S n) s = inl e.
Proof. intros Hp. cbn [repeat_pop]. by rewrite Hp. Qed.

Lemma repeat_pop_front xs l :
  repeat_pop Queue.dequeue (length xs) (FifoFiloBase.mk (xs ++ l)) =
    inr (xs, FifoFiloBase.mk l).
Proof.
  induction xs as [|x xs IH]; [done|].
  change (length (x :: xs)) with (S (length xs)).
  rewrite (repeat_pop_S _ _ _ x (FifoFiloBase.mk (xs ++ l))) by done.
  by rewrite IH.
Qed.

Lemma repeat_pop_back xs l :
  repeat_pop Stack.pop (length xs) (FifoFiloBase.mk (l ++ xs)) =
    inr (reverse xs, FifoFiloBase.mk l).
Proof.
  revert l. induction xs as [|x xs IH] using rev_ind; intros l; simpl.
  - by rewrite app_nil_r.
  - rewrite length_app, Nat.add_comm. simpl length. simpl Nat.add.
    rewrite (repeat_pop_S _ _ _ x (FifoFiloBase.mk (l ++ xs))).
    + rewrite IH. by rewrite reverse_app.
    + unfold Stack.pop. simpl. rewrite app_assoc, reverse_app. simpl.
      by rewrite reverse_involutive.
Qed.

(** Stack is last-in first-out: after pushing [xs] on any stack, as many
    pops return [xs] in reverse and leave the stack as it was. *)
Theorem Stack_lifo xs s :
  repeat_pop Stack.pop (length xs) (push_all Stack.push xs s) =
    inr (reverse xs, s).
Proof. rewrite push_all_push, repeat_pop_back. by destruct s. Qed.

(** Queue is first-in first-out: after enqueuing [xs] on a queue that
    holds [l], dequeuing everything returns [l] and then [xs], in order,
    and leaves the queue empty. *)
Theorem Queue_fifo xs s :
  repeat_pop Queue.dequeue (FifoFiloBase.__len__ s + length xs)
             (push_all Queue.enqueue xs s) =
    inr (FifoFiloBase.__iter__ s ++ xs, FifoFiloBase.mk []).
Proof.
  rewrite push_all_enqueue. unfold FifoFiloBase.__len__, FifoFiloBase.__iter__.
  rewrite <- length_app.
  pose proof (repeat_pop_front (FifoFiloBase._deque s ++ xs) []) as H.
  by rewrite app_nil_r in H.
Qed.

(** The two ends of a Deque: items unshifted at the front come back in
    reverse through [shift] (same end) and, on an empty deque, in order
    through [pop] (other end). *)
Theorem Deque_two_ends xs s :
  repeat_pop Deque.shift (length xs) (push_all Deque.unshift xs s) =
    inr (reverse xs, s) /\
  repeat_pop Stack.pop (length xs)
             (push_all Deque.unshift xs (FifoFiloBase.__init__ None)) =
    inr (xs, FifoFiloBase.mk []).
Proof.
  rewrite !push_all_unshift. split.
  - pose proof (repeat_pop_front (reverse xs) (FifoFiloBase._deque s)) as H.
    rewrite length_reverse in H. destruct s. exact H.
  - simpl. rewrite app_nil_r.
    pose proof (repeat_pop_back (reverse xs) []) as H.
    rewrite length_reverse, reverse_involutive in H. exact H.
Qed.

(** Removing from an empty container raises [IndexError], and only then:
    [pop], [dequeue] and [shift] raise exactly when the container is
    empty, and asking for more items than there are raises as well. *)
Theorem FifoFilo_empty_raises s :
  (Stack.pop s = inl IndexError <-> FifoFiloBase.__bool__ s = false) /\
  (Queue.dequeue s = inl IndexError <-> FifoFiloBase.__bool__ s = false) /\
  (Deque.shift s = inl IndexError <-> FifoFiloBase.__bool__ s = false) /\
  (forall n, (FifoFiloBase.__len__ s < n)%nat ->
             repeat_pop Queue.dequeue n s = inl IndexError /\
             repeat_pop Stack.pop n s = inl IndexError).
Proof.
  destruct s as [l]. unfold Stack.pop, Queue.dequeue, Deque.shift,
    FifoFiloBase.__bool__, FifoFiloBase.__len__. simpl. split_and!.
  - destruct l as [|x l] using rev_ind; [done|].
    rewrite reverse_app. simpl. by destruct l.
  - by destruct l.
  - by destruct l.
  - intros n. revert l. induction n as [|n IH]; intros l Hn; [lia|].
    split.
    + destruct l as [|x l]; [by apply repeat_pop_raise|].
      rewrite (repeat_pop_S _ _ _ x (FifoFiloBase.mk l)) by done.
      destruct (IH l) as [-> _]; [simpl in Hn; lia | done].
    + destruct l as [|x l _] using rev_ind; [by apply repeat_pop_raise|].
      rewrite (repeat_pop_S _ _ _ x (FifoFiloBase.mk l)).
      * destruct (IH l) as [_ ->]; [|done].
        rewrite length_app in Hn. simpl in Hn. lia.
      * unfold Stack.pop. simpl. rewrite reverse_app. simpl.
        by rewrite reverse_involutive.
Qed.

(** Indexed assignment follows Python's indexes: within
    [-len <= index < len] it succeeds, the length is kept and the same
    index reads the new value back; outside, assignment and read both
    raise [IndexError]. *)
Theorem FifoFilo_setitem_getitem s (index : Z) (value : A) :
  (- Z.of_nat (FifoFiloBase.__len__ s) <= index < Z.of_nat (FifoFiloBase.__len__ s) ->
   exists s', FifoFiloBase.__setitem__ index value s = inr s' /\
              FifoFiloBase.__getitem__ index s' = inr value /\
              FifoFiloBase.__len__ s' = FifoFiloBase.__len__ s) /\
  (~ (- Z.of_nat (FifoFiloBase.__len__ s) <= index < Z.of_nat (FifoFiloBase.__len__ s)) ->
   FifoFiloBase.__setitem__ index value s = inl IndexError /\
   FifoFiloBase.__getitem__ index s = inl IndexError).
Proof.
  destruct s as [l]. unfold FifoFiloBase.__setitem__, FifoFiloBase.__getitem__,
    FifoFiloBase.__len__. simpl. split; intros Hi.
  - rewrite (py_index_in_range _ _ Hi). eexists. split; [reflexivity|]. simpl.
    rewrite length_insert. split; [|done].
    unfold py_getitem. rewrite length_insert, (py_index_in_range _ _ Hi).
    rewrite list_lookup_insert_eq; [done | case_decide; lia].
  - rewrite (py_index_out_of_range _ _ Hi). split; [done|].
    by apply py_getitem_out_of_range.
Qed.

(** An assignment leaves every other position as it was. *)
Theorem FifoFilo_setitem_other s s' (index j : Z) (value : A) :
  FifoFiloBase.__setitem__ index value s = inr s' ->
  py_index (FifoFiloBase.__len__ s) j <> py_index (FifoFiloBase.__len__ s) index ->
  FifoFiloBase.__getitem__ j s' = FifoFiloBase.__getitem__ j s.
Proof.
  destruct s as [l]. unfold FifoFiloBase.__setitem__, FifoFiloBase.__getitem__,
    FifoFiloBase.__len__. simpl.
  destruct (py_index (length l) index) as [n|] eqn:Hn; [|done].
  intros [= <-] Hj. simpl. unfold py_getitem. rewrite length_insert.
  destruct (py_index (length l) j) as [m|]; [|done].
  rewrite list_lookup_insert_ne; [done | congruence].
Qed.

(** [__reversed__] is an involution, and it mirrors the indexes: the item
    at [index] afterwards is the item that was at [-1 - index], with
    [IndexError] on the same indexes. *)
Theorem FifoFilo_reversed s (index : Z) :
  FifoFiloBase.__reversed__ (FifoFiloBase.__reversed__ s) = s /\
  FifoFiloBase.__getitem__ index (FifoFiloBase.__reversed__ s) =
    FifoFiloBase.__getitem__ (-1 - index) s.
Proof.
  destruct s as [l]. unfold FifoFiloBase.__reversed__, FifoFiloBase.__getitem__.
  simpl. split; [by rewrite reverse_involutive | apply py_getitem_reverse].
Qed.

End FifoFilo.

(** ** OrderedDict *)

Section OrderedDictFacts.

Context {K V : Type} `{EqDecision K}.
Implicit Types (d : list (K * V)) (k : K) (v : V).

Lemma odict_get_setitem k k' v d :
  OrderedDict.get k' (OrderedDict.setitem k v d) =
    if decide (k' = k) then Some v else OrderedDict.get k' d.
Proof.
  induction d as [|[k0 v0] d IH]; simpl.
  - by destruct (decide (k' = k)).
  - destruct (decide (k = k0)) as [->|Hk]; simpl.
    + by destruct (decide (k' = k0)).
    + destruct (decide (k' = k0)) as [->|Hk'].
      * by rewrite decide_False by congruence.
      * exact IH.
Qed.

Lemma odict_get_None k d :
  OrderedDict.get k d = None <-> k ∉ OrderedDict.keys d.
Proof.
  unfold OrderedDict.keys. induction d as [|[k0 v0] d IH]; simpl.
  - split; [intros _; apply not_elem_of_nil | done].
  - rewrite not_elem_of_cons. destruct (decide (k = k0)) as [->|Hk].
    + split; [done | by intros [? _]].
    + rewrite IH. split; [by split | by intros [_ ?]].
Qed.

Lemma odict_keys_setitem k v d :
  OrderedDict.keys (OrderedDict.setitem k v d) =
    if decide (k ∈ OrderedDict.keys d) then OrderedDict.keys d
    else OrderedDict.keys d ++ [k].
Proof.
  unfold OrderedDict.keys. induction d as [|[k0 v0] d IH].
  - destruct (decide (k ∈ _)) as [Hin|_]; [by apply elem_of_nil in Hin | done].
  - cbn [OrderedDict.setitem]. rewrite !fmap_cons. cbn [fst].
    destruct (decide (k = k0)) as [->|Hk].
    + rewrite fmap_cons. cbn [fst].
      destruct (decide (k0 ∈ k0 :: d.*1)) as [_|Hin]; [done|]. destruct Hin. by left.
    + rewrite fmap_cons, IH. cbn [fst].
      destruct (decide (k ∈ d.*1)) as [Hin|Hin];
        destruct (decide (k ∈ k0 :: d.*1)) as [Hin'|Hin']; try done.
      * destruct Hin'. by right.
      * apply elem_of_cons in Hin' as [? | ?]; done.
Qed.

Lemma odict_NoDup_setitem k v d :
  NoDup (OrderedDict.keys d) -> NoDup (OrderedDict.keys (OrderedDict.setitem k v d)).
Proof.
  intros Hnd. rewrite odict_keys_setitem. case_decide; [done|].
  apply NoDup_app. split_and!; [done | | apply NoDup_singleton].
  intros x Hx. rewrite list_elem_of_singleton. by intros ->.
Qed.

Lemma filter_ne_absent (k : K) (l : list K) :
  k ∉ l -> filter (fun y => y <> k) l = l.
Proof.
  induction l as [|y l IH]; [done|]. rewrite not_elem_of_cons. intros [Hy Hl].
  rewrite filter_cons_True by congruence. by rewrite IH.
Qed.

Lemma odict_keys_remove k d :
  NoDup (OrderedDict.keys d) ->
  OrderedDict.keys (OrderedDict.remove k d) =
    filter (fun y => y <> k) (OrderedDict.keys d).
Proof.
  unfold OrderedDict.keys. induction d as [|[k0 v0] d IH]; [done|].
  rewrite fmap_cons. cbn [fst OrderedDict.remove]. intros [Hk0 Hnd]%NoDup_cons.
  destruct (decide (k = k0)) as [->|Hk].
  - rewrite filter_cons_False by (by intros ?). by rewrite filter_ne_absent.
  - rewrite filter_cons_True by congruence. rewrite fmap_cons. cbn [fst].
    by rewrite IH.
Qed.

Lemma odict_remove_setitem k v d :
  k ∉ OrderedDict.keys d -> OrderedDict.remove k (OrderedDict.setitem k v d) = d.
Proof.
  unfold OrderedDict.keys. induction d as [|[k0 v0] d IH]; simpl.
  - intros _. by rewrite decide_True.
  - rewrite not_elem_of_cons. intros [Hk Hd].
    rewrite decide_False by done. simpl. rewrite decide_False by done.
    by rewrite IH.
Qed.

Lemma odict_get_remove k k' d :
  k' <> k -> OrderedDict.get k' (OrderedDict.remove k d) = OrderedDict.get k' d.
Proof.
  intros Hne. induction d as [|[k0 v0] d IH]; simpl; [done|].
  destruct (decide (k = k0)) as [->|Hk]; simpl.
  - by rewrite decide_False.
  - by rewrite IH.
Qed.

End OrderedDictFacts.

(** ** OrderedSet and MutableOrderedSet *)

Section OrderedSetFacts.

Context {A : Type} `{EqDecision A}.
Implicit Types (s : OrderedSet.t A) (x : A) (xs : list A) (d : list (A * unit)).

Lemma fromkeys_keys xs d :
  NoDup (OrderedDict.keys d) ->
  exists rest,
    OrderedDict.keys (foldl (fun d k => OrderedDict.setitem k tt d) d xs)
      = OrderedDict.keys d ++ rest /\
    NoDup (OrderedDict.keys d ++ rest) /\
    rest `sublist_of` xs /\
    (forall x, x ∈ rest <-> x ∈ xs /\ x ∉ OrderedDict.keys d) /\
    (NoDup xs -> (forall x, x ∈ xs -> x ∉ OrderedDict.keys d) -> rest = xs).
Proof.
  revert d. induction xs as [|x xs IH]; intros d Hnd; simpl.
  - exists []. rewrite app_nil_r. split_and!; try done.
    intros x. split; [by intros ?%elem_of_nil | by intros [?%elem_of_nil _]].
  - destruct (IH (OrderedDict.setitem x tt d)) as (rest & Hk & Hn & Hs & Hm & He).
    { by apply odict_NoDup_setitem. }
    rewrite odict_keys_setitem in Hk, Hn, Hm, He.
    destruct (decide (x ∈ OrderedDict.keys d)) as [Hin|Hin].
    + exists rest. split_and!; try done.
      * by apply sublist_cons.
      * intros y. rewrite Hm, elem_of_cons. split; [by intros [? ?]; split; [right|]|].
        intros [[-> | ?] ?]; [done | by split].
      * intros Hnx Hall. exfalso. apply (Hall x); [by left | done].
    + exists (x :: rest). rewrite <- app_assoc in Hk, Hn. simpl in Hk, Hn.
      split_and!; try done.
      * by apply sublist_skip.
      * intros y. rewrite !elem_of_cons, Hm, elem_of_app, list_elem_of_singleton.
        split.
        -- intros [-> | [? ?]]; [by split; [left|] | split; [by right | tauto]].
        -- intros [[-> | ?] ?]; [by left|].
           destruct (decide (y = x)) as [->|?]; [by left | right; split; [done | tauto]].
      * intros [Hx Hnx]%NoDup_cons Hall. f_equal. apply He; [done|].
        intros y Hy. rewrite elem_of_app, list_elem_of_singleton.
        intros [? | ->]; [|done]. apply (Hall y); [by right | done].
Qed.

Lemma filter_notin_app (ks ks' K : list A) :
  filter (fun z => z ∉ ks ++ ks') K =
    filter (fun z => z ∉ ks) (filter (fun z => z ∉ ks') K).
Proof.
  rewrite list_filter_filter. apply list_filter_iff.
  intros z. rewrite elem_of_app. tauto.
Qed.

Lemma filter_notin_absorb (ks : list A) (y : A) (K : list A) :
  y ∈ ks ->
  filter (fun z => z ∉ ks) (filter (fun z => z ∉ [y]) K) =
    filter (fun z => z ∉ ks) K.
Proof.
  intros Hy. rewrite list_filter_filter. apply list_filter_iff.
  intros z. rewrite list_elem_of_singleton. split; [tauto|].
  intros Hz. split; [done|]. by intros ->.
Qed.

(** Building the dictionary of an iterable on top of [d] gives the keys of
    [d] followed by the keys built from nothing, less those of [d]. *)
Lemma fromkeys_from xs : forall d,
  OrderedDict.keys (foldl (fun d k => OrderedDict.setitem k tt d) d xs) =
    OrderedDict.keys d ++
    filter (fun z => z ∉ OrderedDict.keys d)
           (OrderedDict.keys (foldl (fun d k => OrderedDict.setitem k tt d) [] xs)).
Proof.
  induction xs as [|y ys IH]; intros d; cbn [foldl].
  - by rewrite app_nil_r.
  - rewrite (IH (OrderedDict.setitem y tt d)), (IH (OrderedDict.setitem y tt [])).
    rewrite odict_keys_setitem.
    change (OrderedDict.keys (OrderedDict.setitem y tt [])) with [y].
    rewrite filter_app.
    destruct (decide (y ∈ OrderedDict.keys d)) as [Hin|Hin].
    + rewrite filter_cons_False by (by intros ?). rewrite filter_nil. simpl.
      by rewrite filter_notin_absorb.
    + rewrite filter_cons_True by done. rewrite filter_nil.
      rewrite filter_notin_app, <- !app_assoc. done.
Qed.

Lemma OrderedSet_iter_cons x xs :
  OrderedSet.__iter__ (OrderedSet.__init__ (Some (x :: xs))) =
    x :: filter (fun z => z <> x)
                (OrderedSet.__iter__ (OrderedSet.__init__ (Some xs))).
Proof.
  assert (Hinit : forall ys,
            OrderedSet.__iter__ (OrderedSet.__init__ (Some ys)) =
            OrderedDict.keys (foldl (fun d k => OrderedDict.setitem k tt d) [] ys)).
  { by intros [|y ys]. }
  rewrite !Hinit. cbn [foldl]. rewrite fromkeys_from.
  change (OrderedDict.keys (OrderedDict.setitem x tt [])) with [x]. simpl.
  f_equal. apply list_filter_iff. intros z. by rewrite list_elem_of_singleton.
Qed.

(** [OrderedSet(iterable)] keeps each element once, in the order of the
    first occurrences: the iteration has no duplicate, has exactly the
    elements of the iterable, is a subsequence of it, and is the iterable
    itself when that has no duplicate; [OrderedSet()] is empty.  The order
    is fixed by the last conjunct: the first item of the iterable comes
    first, and what follows is the set of the remaining items without it,
    so every element stands where it occurs first. *)
Theorem OrderedSet_init xs :
  NoDup (OrderedSet.__iter__ (OrderedSet.__init__ (Some xs))) /\
  (forall x, OrderedSet.__contains__ x (OrderedSet.__init__ (Some xs))
             = bool_decide (x ∈ xs)) /\
  OrderedSet.__iter__ (OrderedSet.__init__ (Some xs)) `sublist_of` xs /\
  (NoDup xs -> OrderedSet.__iter__ (OrderedSet.__init__ (Some xs)) = xs) /\
  OrderedSet.__iter__ (OrderedSet.__init__ (A := A) None) = [] /\
  OrderedSet.__iter__ (OrderedSet.__init__ (A := A) (Some [])) = [] /\
  (forall x, OrderedSet.__iter__ (OrderedSet.__init__ (Some (x :: xs))) =
             x :: filter (fun z => z <> x)
                         (OrderedSet.__iter__ (OrderedSet.__init__ (Some xs)))).
Proof.
  cut (NoDup (OrderedSet.__iter__ (OrderedSet.__init__ (Some xs))) /\
       (forall x, OrderedSet.__contains__ x (OrderedSet.__init__ (Some xs))
                  = bool_decide (x ∈ xs)) /\
       OrderedSet.__iter__ (OrderedSet.__init__ (Some xs)) `sublist_of` xs /\
       (NoDup xs -> OrderedSet.__iter__ (OrderedSet.__init__ (Some xs)) = xs) /\
       OrderedSet.__iter__ (OrderedSet.__init__ (A := A) None) = []).
  { intros (? & ? & ? & ? & ?). split_and!; try done.
    intros x. apply OrderedSet_iter_cons. }
  destruct xs as [|x0 xs].
  { simpl. split_and!; try done. apply NoDup_nil_2. }
  destruct (fromkeys_keys (x0 :: xs) []) as (rest & Hk & Hn & Hs & Hm & He).
  { apply NoDup_nil_2. }
  unfold OrderedSet.__init__, OrderedSet.__iter__, OrderedSet.__contains__.
  cbn [OrderedSet._dict]. rewrite Hk. simpl in *. split_and!; try done.
  - intros x. apply bool_decide_ext. rewrite Hm. split; [by intros [? _]|].
    intros ?. split; [done | apply not_elem_of_nil].
  - intros Hnd. apply He; [done|]. intros ? _. apply not_elem_of_nil.
Qed.

(** [add] appends a new element at the end and leaves the set as it is
    when the element is already there, so an element keeps the place of
    its first insertion; the set stays duplicate-free and [add] is
    idempotent. *)
Theorem MutableOrderedSet_add x s :
  OrderedSet.__iter__ (MutableOrderedSet.add x s) =
    (if OrderedSet.__contains__ x s then OrderedSet.__iter__ s
     else OrderedSet.__iter__ s ++ [x]) /\
  OrderedSet.__contains__ x (MutableOrderedSet.add x s) = true /\
  (NoDup (OrderedSet.__iter__ s) ->
   NoDup (OrderedSet.__iter__ (MutableOrderedSet.add x s))) /\
  MutableOrderedSet.add x (MutableOrderedSet.add x s) = MutableOrderedSet.add x s.
Proof.
  destruct s as [d].
  unfold MutableOrderedSet.add, OrderedSet.__iter__, OrderedSet.__contains__.
  cbn [OrderedSet._dict].
  assert (Hiter : OrderedDict.keys (OrderedDict.setitem x tt d) =
            if bool_decide (x ∈ OrderedDict.keys d) then OrderedDict.keys d
            else OrderedDict.keys d ++ [x]).
  { rewrite odict_keys_setitem. by destruct (decide (x ∈ OrderedDict.keys d));
      [rewrite bool_decide_eq_true_2 | rewrite bool_decide_eq_false_2]. }
  split_and!.
  - exact Hiter.
  - apply bool_decide_eq_true. rewrite odict_keys_setitem.
    case_decide; [done|]. apply elem_of_app. right. by left.
  - apply odict_NoDup_setitem.
  - f_equal. clear Hiter. induction d as [|[k []] d IH]; simpl.
    + by rewrite decide_True.
    + destruct (decide (x = k)) as [->|Hk]; simpl.
      * by rewrite decide_True.
      * rewrite decide_False by done. by rewrite IH.
Qed.

(** [discard] raises [KeyError] on an element that is not in the set
    (unlike [set.discard]); on an element of the set it removes exactly
    that element and keeps the order of the others. *)
Theorem MutableOrderedSet_discard x s :
  NoDup (OrderedSet.__iter__ s) ->
  (OrderedSet.__contains__ x s = false ->
   MutableOrderedSet.discard x s = inl KeyError) /\
  (OrderedSet.__contains__ x s = true ->
   exists s', MutableOrderedSet.discard x s = inr s' /\
              OrderedSet.__contains__ x s' = false /\
              OrderedSet.__iter__ s' = filter (fun y => y <> x) (OrderedSet.__iter__ s) /\
              S (OrderedSet.__len__ s') = OrderedSet.__len__ s /\
              NoDup (OrderedSet.__iter__ s')).
Proof.
  destruct s as [d].
  unfold MutableOrderedSet.discard, OrderedSet.__iter__, OrderedSet.__contains__,
    OrderedSet.__len__.
  cbn [OrderedSet._dict]. intros Hnd. split.
  - intros Hx%bool_decide_eq_false. apply odict_get_None in Hx. by rewrite Hx.
  - intros Hx%bool_decide_eq_true.
    destruct (OrderedDict.get x d) as [u|] eqn:Hget.
    2: { by apply odict_get_None in Hget. }
    eexists. split; [reflexivity|]. cbn [OrderedSet._dict].
    rewrite odict_keys_remove by done. split_and!.
    + apply bool_decide_eq_false. rewrite list_elem_of_filter. by intros [? _].
    + done.
    + clear Hget Hnd. induction d as [|[k v] d IH]; simpl in *.
      * by apply elem_of_nil in Hx.
      * destruct (decide (x = k)) as [->|Hk]; [done|]. simpl. f_equal.
        apply IH. apply elem_of_cons in Hx as [? | ?]; done.
    + by apply NoDup_filter.
Qed.

(** Adding a new element and discarding it again gives the set back. *)
Theorem MutableOrderedSet_add_discard x s :
  OrderedSet.__contains__ x s = false ->
  MutableOrderedSet.discard x (MutableOrderedSet.add x s) = inr s.
Proof.
  destruct s as [d].
  unfold MutableOrderedSet.discard, MutableOrderedSet.add, OrderedSet.__contains__.
  cbn [OrderedSet._dict]. intros Hx%bool_decide_eq_false.
  rewrite odict_get_setitem, decide_True by done.
  by rewrite odict_remove_setitem.
Qed.

(** Indexing an OrderedSet follows the iteration order with Python's
    indexes: [s[i]] for [0 <= i < len] is the [i]-th element iterated,
    [s[-1 - i]] is the [i]-th from the end, every element returned is in
    the set, and an index outside [-len <= i < len] raises
    [IndexError]. *)
Theorem OrderedSet_getitem s (i : Z) :
  (0 <= i ->
   forall x, OrderedSet.__getitem__ i s = inr x <->
             OrderedSet.__iter__ s !! Z.to_nat i = Some x) /\
  OrderedSet.__getitem__ (-1 - i) s = py_getitem (reverse (OrderedSet.__iter__ s)) i /\
  (forall x, OrderedSet.__getitem__ i s = inr x -> OrderedSet.__contains__ x s = true) /\
  ((exists x, OrderedSet.__getitem__ i s = inr x) <->
   - Z.of_nat (OrderedSet.__len__ s) <= i < Z.of_nat (OrderedSet.__len__ s)).
Proof.
  destruct s as [d].
  unfold OrderedSet.__getitem__, OrderedSet.__iter__, OrderedSet.__contains__,
    OrderedSet.__len__.
  cbn [OrderedSet._dict].
  assert (Hlen : length (OrderedDict.keys d) = length d).
  { unfold OrderedDict.keys. by rewrite length_fmap. }
  set (l := OrderedDict.keys d) in *.
  assert (Hin : forall x, py_getitem l i = inr x -> x ∈ l).
  { intros x. unfold py_getitem. destruct (py_index (length l) i) as [n|]; [|done].
    destruct (l !! n) as [y|] eqn:Hy; [|done]. intros [= <-].
    by eapply list_elem_of_lookup_2. }
  split_and!.
  - intros Hi x. split.
    + unfold py_getitem. destruct (py_index (length l) i) as [n|] eqn:Hn; [|done].
      apply py_index_Some in Hn as (_ & _ & [[_ ->] | [? _]]); [|lia].
      destruct (l !! Z.to_nat i); [|done]. by intros [= ->].
    + intros Hx. pose proof (lookup_lt_Some _ _ _ Hx).
      destruct (py_getitem_in_range l i) as (y & -> & Hy); [lia|].
      rewrite decide_True in Hy by done. congruence.
  - by rewrite py_getitem_reverse.
  - intros x Hx. apply bool_decide_eq_true. by apply Hin.
  - rewrite <- Hlen. split.
    + intros [x Hx]. unfold py_getitem in Hx.
      destruct (py_index (length l) i) as [n|] eqn:Hn; [|done].
      by apply py_index_Some in Hn as (_ & ? & _).
    + intros Hi. destruct (py_getitem_in_range l i Hi) as (x & ? & _). eauto.
Qed.

End OrderedSetFacts.

(** ** TwoWayDict *)

Section TwoWayDictFacts.

Context {K V : Type} `{EqDecision K} `{EqDecision V}.
Implicit Types (d : TwoWayDict.t K V) (its : list (K * TwoWayDict.value V))
  (rev : list (V * K)) (k : K) (sv : V) (v : TwoWayDict.value V).

Lemma get_fold_iterable rev k (vs : list V) sv :
  OrderedDict.get sv (foldl (fun rev sv' => OrderedDict.setitem sv' k rev) rev vs) =
    if bool_decide (sv ∈ vs) then Some k else OrderedDict.get sv rev.
Proof.
  revert rev. induction vs as [|x vs IH]; intros rev; cbn [foldl].
  - case_bool_decide as Hin; [by apply elem_of_nil in Hin | done].
  - rewrite IH, odict_get_setitem.
    destruct (decide (sv = x)) as [->|Hne].
    + rewrite (bool_decide_eq_true_2 (x ∈ x :: vs)) by (by left).
      by case_bool_decide.
    + destruct (decide (sv ∈ vs)) as [Hin|Hin].
      * rewrite !bool_decide_eq_true_2; [done | by right | done].
      * rewrite !bool_decide_eq_false_2; [done | | done].
        rewrite elem_of_cons. by intros [? | ?].
Qed.

Lemma reverse_items_snoc its k v :
  TwoWayDict.reverse_items (its ++ [(k, v)]) =
    match v with
    | TwoWayDict.Iterable vs =>
        foldl (fun rev sv => OrderedDict.setitem sv k rev)
              (TwoWayDict.reverse_items its) vs
    | TwoWayDict.Single x => OrderedDict.setitem x k (TwoWayDict.reverse_items its)
    end.
Proof. unfold TwoWayDict.reverse_items. by rewrite foldl_app. Qed.

Lemma get_reverse_items_snoc its k v sv :
  OrderedDict.get sv (TwoWayDict.reverse_items (its ++ [(k, v)])) =
    if TwoWayDict.yields sv v then Some k
    else OrderedDict.get sv (TwoWayDict.reverse_items its).
Proof.
  rewrite reverse_items_snoc. destruct v as [x|vs]; simpl.
  - rewrite odict_get_setitem.
    destruct (decide (sv = x)) as [->|Hne].
    + by rewrite bool_decide_eq_true_2.
    + by rewrite bool_decide_eq_false_2.
  - apply get_fold_iterable.
Qed.

(** Assigning to a key that is not there appends the item. *)
Lemma setitem_fresh_snoc its k v :
  k ∉ OrderedDict.keys its -> OrderedDict.setitem k v its = its ++ [(k, v)].
Proof.
  unfold OrderedDict.keys. induction its as [|[k0 v0] its IH]; [done|].
  rewrite fmap_cons, not_elem_of_cons. cbn [fst OrderedDict.setitem].
  intros [Hne Hin]. rewrite decide_False by done. by rewrite IH.
Qed.

(** The reverse maps each value, and each item of an iterable value, to
    the last key of the dictionary that has it. *)
Theorem TwoWayDict_reverse_lookup its sv :
  OrderedDict.get sv (TwoWayDict.reverse_items its) =
    fst <$> last (filter (fun kv => TwoWayDict.yields sv (snd kv)) its).
Proof.
  induction its as [|[k v] its IH] using rev_ind; [done|].
  rewrite get_reverse_items_snoc, filter_app, IH.
  destruct (TwoWayDict.yields sv v) eqn:Hy.
  - rewrite filter_cons_True by (simpl; by rewrite Hy).
    by rewrite filter_nil, last_snoc.
  - rewrite filter_cons_False by (simpl; rewrite Hy; intros []).
    by rewrite filter_nil, app_nil_r.
Qed.

(** The cached reverse is always the reverse of the current items: after
    any sequence of [d[k] = v] and [reversed(d)] on a new dictionary,
    [reversed(d)] returns what [_reversed_representation] computes from the
    items that the dictionary has then. *)
Theorem TwoWayDict_cache_coherent (ops : list (TwoWayDict.op K V)) :
  fst (TwoWayDict.__reversed__
         (foldl (fun d o => TwoWayDict.exec o d) TwoWayDict.empty ops))
  = TwoWayDict.reverse_items
      (TwoWayDict.items
         (foldl (fun d o => TwoWayDict.exec o d) TwoWayDict.empty ops)).
Proof.
  set (ok := fun d : TwoWayDict.t K V =>
         forall rev, TwoWayDict.cache d = Some rev ->
                     rev = TwoWayDict.reverse_items (TwoWayDict.items d)).
  assert (Hinv : forall d, ok d ->
            ok (foldl (fun d o => TwoWayDict.exec o d) d ops)).
  { induction ops as [|o ops IH]; intros d Hd; simpl; [done|].
    apply IH. destruct o as [k v|]; simpl.
    - by intros rev.
    - unfold TwoWayDict.__reversed__, TwoWayDict._reversed_representation.
      destruct (TwoWayDict.cache d) eqn:Hc; simpl; [done|].
      by intros rev [= <-]. }
  specialize (Hinv TwoWayDict.empty).
  set (d := foldl _ _ _) in *.
  assert (Hd : ok d) by (apply Hinv; by intros rev).
  unfold TwoWayDict.__reversed__, TwoWayDict._reversed_representation.
  destruct (TwoWayDict.cache d) eqn:Hc; simpl; [by apply Hd | done].
Qed.

(** Insert and reverse lookup: after [d[k] = v] with a key [k] that the
    dictionary did not have, [reversed(d)] maps [v], or every item that an
    iterable [v] yields, to [k], whatever had been cached before. *)
Theorem TwoWayDict_setitem_reversed d k v sv :
  k ∉ OrderedDict.keys (TwoWayDict.items d) ->
  TwoWayDict.yields sv v = true ->
  OrderedDict.get sv (fst (TwoWayDict.__reversed__ (TwoWayDict.__setitem__ k v d)))
  = Some k.
Proof.
  intros Hk Hy.
  unfold TwoWayDict.__reversed__, TwoWayDict._reversed_representation,
    TwoWayDict.__setitem__. simpl.
  by rewrite (setitem_fresh_snoc _ _ _ Hk), get_reverse_items_snoc, Hy.
Qed.

(** [del d[k]] does not drop the cache: once the reverse has been read, a
    key that is deleted is still what the reverse returns for its value,
    although the dictionary no longer has the key. *)
Theorem TwoWayDict_delitem_stale d k v sv :
  k ∉ OrderedDict.keys (TwoWayDict.items d) ->
  TwoWayDict.yields sv v = true ->
  exists d',
    TwoWayDict.__delitem__ k
      (snd (TwoWayDict.__reversed__ (TwoWayDict.__setitem__ k v d))) = inr d' /\
    TwoWayDict.items d' = TwoWayDict.items d /\
    OrderedDict.get k (TwoWayDict.items d') = None /\
    OrderedDict.get sv (fst (TwoWayDict.__reversed__ d')) = Some k.
Proof.
  intros Hk Hy.
  unfold TwoWayDict.__reversed__, TwoWayDict._reversed_representation,
    TwoWayDict.__setitem__, TwoWayDict.__delitem__. simpl.
  rewrite odict_get_setitem, decide_True by done.
  eexists. split; [reflexivity|]. simpl.
  rewrite odict_remove_setitem by done.
  split_and!; [done | by apply odict_get_None |].
  by rewrite (setitem_fresh_snoc _ _ _ Hk), get_reverse_items_snoc, Hy.
Qed.

Lemma odict_get_app (k : K) (l1 l2 : list (K * TwoWayDict.value V)) :
  OrderedDict.get k (l1 ++ l2) =
    match OrderedDict.get k l1 with
    | Some x => Some x
    | None => OrderedDict.get k l2
    end.
Proof.
  induction l1 as [|[k0 v0] l1 IH]; simpl; [done|].
  by destruct (decide (k = k0)).
Qed.

Lemma odict_get_elem_of (k : K) its v :
  OrderedDict.get k its = Some v -> k ∈ its.*1 /\ v ∈ its.*2.
Proof.
  induction its as [|[k0 v0] its IH]; simpl; [done|].
  destruct (decide (k = k0)) as [->|Hne].
  - intros [= ->]. split; by left.
  - intros [? ?]%IH. split; by right.
Qed.

(** On a one-to-one dictionary the reverse is the inverse: when no value
    is iterated and no two keys have the same value, [reversed(d)[x]] is
    [k] exactly when [d[k]] is [x]. *)
Theorem TwoWayDict_reverse_inverse its :
  NoDup its.*1 -> NoDup its.*2 ->
  Forall (fun kv => exists x, snd kv = TwoWayDict.Single x) its ->
  forall k x,
    OrderedDict.get x (TwoWayDict.reverse_items its) = Some k <->
    OrderedDict.get k its = Some (TwoWayDict.Single x).
Proof.
  induction its as [|[k0 v0] its IH] using rev_ind; intros Hk Hv Hs k x; [done|].
  rewrite fmap_app in Hk. rewrite fmap_app in Hv. simpl in Hk, Hv.
  apply NoDup_app in Hk as (Hk & Hk0 & _). apply NoDup_app in Hv as (Hv & Hv0 & _).
  apply Forall_app in Hs as [Hs Hs0]. apply Forall_singleton in Hs0 as [x0 Hx0].
  simpl in Hx0. subst v0.
  specialize (IH Hk Hv Hs k x).
  rewrite get_reverse_items_snoc, odict_get_app. simpl.
  destruct (OrderedDict.get k its) as [w|] eqn:Hget.
  - apply odict_get_elem_of in Hget as [Hin1 Hin2].
    assert (k <> k0).
    { intros ->. apply (Hk0 k0 Hin1). by left. }
    assert (w <> TwoWayDict.Single x0).
    { intros ->. apply (Hv0 _ Hin2). by left. }
    destruct (decide (x0 = x)) as [->|Hne].
    + rewrite bool_decide_eq_true_2 by done. split; congruence.
    + rewrite bool_decide_eq_false_2 by done. exact IH.
  - destruct (decide (x0 = x)) as [->|Hne].
    + rewrite bool_decide_eq_true_2 by done.
      destruct (decide (k = k0)) as [->|Hne]; split; congruence.
    + rewrite bool_decide_eq_false_2 by done. rewrite IH.
      destruct (decide (k = k0)); split; congruence.
Qed.

End TwoWayDictFacts.

(** ** More on ObservableAsyncQueue *)

Section ObservableMore.

Context {T : Type}.
Implicit Types (st : state T) (l xs : list T) (o : op T) (ops : list (op T)).

(** Indexing, iteration and [len] agree on every state that a new queue
    reaches: [q[i]] is Python's [i]-th item of the current contents (a
    negative [i] counts from the back), it raises [IndexError] exactly
    outside [-len(q) <= i < len(q)], and it leaves the contents alone. *)
Theorem ObservableAsyncQueue_getitem (c : Z) ops (i : Z) :
  exists st',
    __getitem__ i (run ops (new_queue c)) =
      match py_getitem (contents (run ops (new_queue c))) i with
      | inr x => Returned x st'
      | inl e => Raised e st'
      end /\
    contents st' = contents (run ops (new_queue c)) /\
    fst (__iter__ (run ops (new_queue c))) = contents (run ops (new_queue c)) /\
    __len__ (run ops (new_queue c)) =
      Z.of_nat (length (fst (__iter__ (run ops (new_queue c))))) /\
    ((exists x, py_getitem (contents (run ops (new_queue c))) i = inr x) <->
     - __len__ (run ops (new_queue c)) <= i < __len__ (run ops (new_queue c))).
Proof.
  set (st := run ops (new_queue c)).
  assert (Hwf : wf st) by apply wf_run, wf_new_queue.
  pose proof (holds_deref _ _ _ (get_view_holds st Hwf)) as Hd.
  pose proof (get_view_contents st Hwf) as Hc.
  unfold __getitem__, __iter__, __len__, qsize.
  destruct (get_view st) as [v st1]; simpl in *.
  exists st1. rewrite Hd. split_and!; try done.
  split.
  - intros [x Hx]. unfold py_getitem in Hx.
    destruct (py_index (length (contents st)) i) as [n|] eqn:Hn; [|done].
    by apply py_index_Some in Hn as (_ & ? & _).
  - intros Hi. destruct (py_getitem_in_range (contents st) i Hi) as (x & ? & _).
    eauto.
Qed.

Lemma put_effect (x : T) st :
  full st = false ->
  exists st', put x st = Returned tt st' /\
              mutated st st' (contents st ++ [x]) /\
              (futures st', _getters st') = wakeup (futures st) (_getters st) /\
              _putters st' = _putters st.
Proof.
  intros Hf. destruct (put_spec x st Hf) as (st' & Hput & M).
  exists st'. split_and!; [done | done | |].
  all: unfold put, put_nowait, _put in Hput; rewrite Hf in Hput.
  all: injection Hput as <-; unfold _wakeup_next_getters; simpl.
  all: by destruct (wakeup (futures st) (_getters st)).
Qed.

Lemma get_effect (x : T) l st :
  contents st = x :: l ->
  exists st', get st = Returned x st' /\ mutated st st' l /\
              (futures st', _putters st') = wakeup (futures st) (_putters st) /\
              _getters st' = _getters st.
Proof.
  intros Hc. destruct (get_spec x l st Hc) as (st' & Hget & M).
  exists st'. split_and!; [done | done | |].
  all: unfold get, get_nowait, _get, base_get, empty in Hget; rewrite Hc in Hget.
  all: injection Hget as <-; unfold _wakeup_next_putters; simpl.
  all: by destruct (wakeup (futures st) (_putters st)).
Qed.

Lemma puts_wake_in_order xs : forall st,
  NoDup (_getters st) ->
  Forall (fun g => future_state st g = PENDING) (_getters st) ->
  (length xs <= length (_getters st))%nat ->
  _maxsize st <= 0 \/ qsize st + Z.of_nat (length xs) <= _maxsize st ->
  contents (run (map OpPut xs) st) = contents st ++ xs /\
  _getters (run (map OpPut xs) st) = drop (length xs) (_getters st) /\
  Forall (fun g => future_state (run (map OpPut xs) st) g = FINISHED)
         (take (length xs) (_getters st)) /\
  Forall (fun g => future_state (run (map OpPut xs) st) g = PENDING)
         (drop (length xs) (_getters st)) /\
  (forall h, future_state st h = FINISHED ->
             future_state (run (map OpPut xs) st) h = FINISHED).
Proof.
  induction xs as [|x xs IH]; intros st Hnd Hpend Hlen Hcap.
  - simpl. rewrite app_nil_r, drop_0. split_and!; try done.
  - destruct (_getters st) as [|g gs] eqn:Hg; [simpl in Hlen; lia|].
    assert (Hf : full st = false).
    { apply full_false_iff. simpl in Hcap. lia. }
    destruct (put_effect x st Hf) as (st1 & Hput & M & Hwake & _).
    apply NoDup_cons in Hnd as [Hg_notin Hnd].
    apply Forall_cons in Hpend as [Hg_pend Hpend].
    rewrite Hg in Hwake. simpl in Hwake.
    unfold future_state in Hg_pend.
    assert (Hg_done : fstate_done (default PENDING (futures st !! g)) = false)
      by (by rewrite Hg_pend).
    rewrite Hg_done in Hwake. injection Hwake as Hfs Hgs.
    assert (Hother : forall h, h <> g -> future_state st1 h = future_state st h).
    { intros h Hh. unfold future_state. rewrite Hfs.
      unfold future_set_result. by rewrite lookup_insert_ne. }
    assert (Hg_fin : future_state st1 g = FINISHED).
    { unfold future_state. rewrite Hfs. unfold future_set_result.
      by rewrite lookup_insert_eq. }
    destruct (IH st1) as (Hc & Hgt & Hfin & Hpe & Hkeep).
    { by rewrite Hgs. }
    { rewrite Hgs. rewrite Forall_forall in Hpend |- *. intros h Hh.
      rewrite Hother; [by apply Hpend | by intros ->]. }
    { rewrite Hgs. simpl in Hlen. lia. }
    { rewrite (mutated_maxsize _ _ _ M). unfold qsize in *.
      rewrite (mutated_contents _ _ _ M), length_app. simpl in *. lia. }
    assert (Hrun : run (map OpPut (x :: xs)) st = run (map OpPut xs) st1).
    { simpl. by rewrite Hput. }
    rewrite Hrun, Hgs in *. simpl. split_and!.
    + rewrite Hc, (mutated_contents _ _ _ M). by rewrite <- app_assoc.
    + done.
    + apply Forall_cons. split; [by apply Hkeep | done].
    + done.
    + intros h Hh. apply Hkeep. destruct (decide (h = g)) as [->|Hne]; [done|].
      by rewrite Hother.
Qed.

(** Fairness of the wake-ups: with consumers suspended in [get] in the
    order [g1, g2, ...], all pending, [n] completed [put]s wake exactly the
    first [n] of them, in that order, and leave the others pending and
    queued. *)
Theorem puts_wake_getters_in_order xs st :
  NoDup (_getters st) ->
  Forall (fun g => future_state st g = PENDING) (_getters st) ->
  (length xs <= length (_getters st))%nat ->
  _maxsize st <= 0 \/ qsize st + Z.of_nat (length xs) <= _maxsize st ->
  contents (run (map OpPut xs) st) = contents st ++ xs /\
  _getters (run (map OpPut xs) st) = drop (length xs) (_getters st) /\
  Forall (fun g => future_state (run (map OpPut xs) st) g = FINISHED)
         (take (length xs) (_getters st)) /\
  Forall (fun g => future_state (run (map OpPut xs) st) g = PENDING)
         (drop (length xs) (_getters st)).
Proof.
  intros Hnd Hp Hl Hc.
  destruct (puts_wake_in_order xs st Hnd Hp Hl Hc) as (? & ? & ? & ? & _).
  done.
Qed.

(** A producer blocked in [unshift] gets through after one [get]: on a
    full queue with no other producer waiting, [unshift] suspends on a new
    future; the next [get] returns the front item and gives that future
    its result; [unshift], resumed, completes and its item is at the
    front. *)
Theorem unshift_resumes_after_get st (item x : T) l :
  full st = true ->
  qsize st <= _maxsize st ->
  contents st = x :: l ->
  _putters st = [] ->
  exists f st1 st2 st3,
    unshift item st = Suspended f st1 /\
    future_state st1 f = PENDING /\
    get st1 = Returned x st2 /\
    future_state st2 f = FINISHED /\ _putters st2 = [] /\
    unshift item st2 = Returned item st3 /\
    contents st3 = item :: l.
Proof.
  intros Hfull Hsize Hc Hp.
  unfold unshift at 1. rewrite Hfull. unfold wait_putter, create_future.
  cbn [fst snd]. rewrite Hp. simpl app.
  eexists _, _.
  match goal with |- exists st2 st3, Suspended _ ?s = _ /\ _ => set (st1 := s) end.
  assert (Hc1 : contents st1 = x :: l) by exact Hc.
  destruct (get_effect x l st1 Hc1) as (st2 & Hget & M & Hwake & _).
  assert (Hpend : future_state st1 (next_fut st) = PENDING).
  { unfold future_state, st1; simpl. by rewrite lookup_insert_eq. }
  assert (Hw : (futures st2, _putters st2) =
               (<[next_fut st := FINISHED]> (futures st1), [])).
  { rewrite Hwake. change (_putters st1) with ([] ++ [next_fut st]).
    apply wakeup_pending; [constructor|].
    unfold future_state in Hpend. by rewrite Hpend. }
  injection Hw as Hfs Hps.
  assert (Hnf : full st2 = false).
  { apply (mutated_full _ _ _ M). right.
    change (_maxsize st1) with (_maxsize st). unfold qsize in Hsize.
    rewrite Hc in Hsize. simpl in Hsize. lia. }
  destruct (unshift_spec item st2 Hnf) as (st3 & Hun & M3).
  exists st2, st3. split_and!; try done.
  - unfold future_state. rewrite Hfs. by rewrite lookup_insert_eq.
  - rewrite (mutated_contents _ _ _ M3). by rewrite (mutated_contents _ _ _ M).
Qed.

Lemma exec_tasks o st :
  is_put o = false ->
  _unfinished_tasks (exec o st) = _unfinished_tasks st /\
  _finished (exec o st) = _finished st.
Proof.
  intros Hp. destruct o; try discriminate Hp; cbn [exec].
  all: unfold get, get_nowait, _get, base_get, wait_getter, get_except,
         unshift, wait_putter, unshift_except, put_except, pop, get_view,
         __setitem__, future_cancel, _wakeup_next_getters,
         _wakeup_next_putters, create_future, set_getters, set_putters,
         set_futures, set_waiters.
  all: repeat case_match; simplify_eq; simpl; done.
Qed.

(** Items inserted with [unshift] are not counted as unfinished tasks: a
    completed [put] adds one to [_unfinished_tasks] and clears the
    [_finished] event, but as long as nothing is inserted through [put] or
    [put_nowait], whatever else is done to a new queue, the counter stays
    at [0] and the event stays set. *)
Theorem unshift_not_counted (c : Z) ops :
  forallb (fun o => negb (is_put o)) ops = true ->
  _unfinished_tasks (run ops (@new_queue T c)) = 0 /\
  _finished (run ops (@new_queue T c)) = true /\
  (forall item st', put item (run ops (@new_queue T c)) = Returned tt st' ->
                    _unfinished_tasks st' = 1 /\ _finished st' = false).
Proof.
  intros Hops.
  assert (Hrun : forall st, _unfinished_tasks (run ops st) = _unfinished_tasks st /\
                            _finished (run ops st) = _finished st).
  { induction ops as [|o ops IH]; intros st; simpl; [done|].
    simpl in Hops. apply andb_prop in Hops as [Ho Hops].
    destruct (IH Hops (exec o st)) as [-> ->].
    apply exec_tasks. by destruct (is_put o). }
  destruct (Hrun (new_queue c)) as [Hu Hf]. simpl in Hu, Hf.
  split_and!; [done | done |].
  intros item st'. unfold put, put_nowait, _put.
  destruct (full _); [by unfold wait_putter|].
  intros [= <-]. unfold _wakeup_next_getters. simpl.
  destruct (wakeup _ _). simpl. rewrite Hu. done.
Qed.

End ObservableMore.

(** ** The container theorems at concrete inputs *)

Lemma FifoFilo_setitem_other_witness :
  FifoFiloBase.__setitem__ (-1) 99 (FifoFiloBase.mk [10; 20; 30])
    = inr (FifoFiloBase.mk [10; 20; 99]) /\
  py_index 3 0 <> py_index 3 (-1) /\
  FifoFiloBase.__getitem__ 0 (FifoFiloBase.mk [10; 20; 99])
    = FifoFiloBase.__getitem__ 0 (FifoFiloBase.mk [10; 20; 30]).
Proof.
  split; [reflexivity|]. split; [vm_compute; discriminate|].
  apply (FifoFilo_setitem_other (FifoFiloBase.mk [10; 20; 30])
           (FifoFiloBase.mk [10; 20; 99]) (-1) 0 99);
    [reflexivity | vm_compute; discriminate].
Defined.

Lemma MutableOrderedSet_discard_witness :
  NoDup (OrderedSet.__iter__ (OrderedSet.__init__ (Some [3; 1; 3; 2]))) /\
  MutableOrderedSet.discard 7 (OrderedSet.__init__ (Some [3; 1; 3; 2]))
    = inl KeyError /\
  exists s', MutableOrderedSet.discard 1 (OrderedSet.__init__ (Some [3; 1; 3; 2]))
               = inr s' /\
             OrderedSet.__contains__ 1 s' = false.
Proof.
  assert (Hnd : NoDup (OrderedSet.__iter__
                         (OrderedSet.__init__ (Some [3; 1; 3; 2])))).
  { vm_compute. apply (bool_decide_unpack _). vm_compute. exact I. }
  split; [exact Hnd|].
  destruct (MutableOrderedSet_discard 7 _ Hnd) as [Hmiss _].
  destruct (MutableOrderedSet_discard 1 _ Hnd) as [_ Hin].
  split; [apply Hmiss; vm_compute; reflexivity|].
  destruct Hin as (s' & Hd & Hc & _); [vm_compute; reflexivity|].
  exists s'. split; [exact Hd | exact Hc].
Defined.

Lemma MutableOrderedSet_add_discard_witness :
  OrderedSet.__contains__ 5 (OrderedSet.__init__ (Some [1; 2])) = false /\
  MutableOrderedSet.discard 5
    (MutableOrderedSet.add 5 (OrderedSet.__init__ (Some [1; 2])))
    = inr (OrderedSet.__init__ (Some [1; 2])).
Proof.
  split; [vm_compute; reflexivity|].
  apply (MutableOrderedSet_add_discard 5 (OrderedSet.__init__ (Some [1; 2]))).
  vm_compute. reflexivity.
Defined.

Lemma TwoWayDict_setitem_reversed_witness :
  (1 ∉ OrderedDict.keys (TwoWayDict.items (TwoWayDict.empty (K := Z) (V := Z)))) /\
  TwoWayDict.yields 20 (TwoWayDict.Iterable [10; 20]) = true /\
  OrderedDict.get 20
    (fst (TwoWayDict.__reversed__
            (TwoWayDict.__setitem__ 1 (TwoWayDict.Iterable [10; 20])
               (TwoWayDict.empty (K := Z) (V := Z)))))
  = Some 1.
Proof.
  split; [apply not_elem_of_nil|]. split; [vm_compute; reflexivity|].
  apply (TwoWayDict_setitem_reversed TwoWayDict.empty 1
           (TwoWayDict.Iterable [10; 20]) 20);
    [apply not_elem_of_nil | vm_compute; reflexivity].
Defined.

Lemma TwoWayDict_delitem_stale_witness :
  (1 ∉ OrderedDict.keys (TwoWayDict.items (TwoWayDict.empty (K := Z) (V := Z)))) /\
  TwoWayDict.yields 10 (TwoWayDict.Single 10) = true /\
  exists d',
    TwoWayDict.__delitem__ 1
      (snd (TwoWayDict.__reversed__
              (TwoWayDict.__setitem__ 1 (TwoWayDict.Single 10)
                 (TwoWayDict.empty (K := Z) (V := Z))))) = inr d' /\
    OrderedDict.get 1 (TwoWayDict.items d') = None /\
    OrderedDict.get 10 (fst (TwoWayDict.__reversed__ d')) = Some 1.
Proof.
  split; [apply not_elem_of_nil|]. split; [vm_compute; reflexivity|].
  destruct (TwoWayDict_delitem_stale (TwoWayDict.empty (K := Z) (V := Z)) 1
              (TwoWayDict.Single 10) 10) as (d' & Hd & _ & Hk & Hr);
    [apply not_elem_of_nil | vm_compute; reflexivity |].
  exists d'. split; [exact Hd|]. split; [exact Hk | exact Hr].
Defined.

Lemma TwoWayDict_reverse_inverse_witness :
  NoDup [1; 2] /\
  NoDup [TwoWayDict.Single 10; TwoWayDict.Single 20] /\
  (OrderedDict.get 20
     (TwoWayDict.reverse_items
        [(1, TwoWayDict.Single 10); (2, TwoWayDict.Single 20)]) = Some 2 <->
   OrderedDict.get 2 [(1, TwoWayDict.Single 10); (2, TwoWayDict.Single 20)]
     = Some (TwoWayDict.Single 20)).
Proof.
  assert (H1 : NoDup [1; 2]).
  { apply (bool_decide_unpack _). vm_compute. exact I. }
  assert (H2 : NoDup [TwoWayDict.Single 10; TwoWayDict.Single (V := Z) 20]).
  { apply (bool_decide_unpack _). vm_compute. exact I. }
  split; [exact H1|]. split; [exact H2|].
  apply (TwoWayDict_reverse_inverse
           [(1, TwoWayDict.Single 10); (2, TwoWayDict.Single 20)] H1 H2).
  repeat constructor; simpl; eauto.
Defined.

Lemma puts_wake_getters_in_order_witness :
  _getters (run [OpGet; OpGet; OpGet] (new_queue 2 : state Z)) = [0; 1; 2]%nat /\
  _getters (run (map OpPut [7; 8]) (run [OpGet; OpGet; OpGet] (new_queue 2 : state Z)))
    = [2%nat] /\
  Forall (fun g =>
            future_state
              (run (map OpPut [7; 8])
                   (run [OpGet; OpGet; OpGet] (new_queue 2 : state Z))) g
            = FINISHED) [0; 1]%nat.
Proof.
  split; [reflexivity|].
  destruct (puts_wake_getters_in_order [7; 8]
              (run [OpGet; OpGet; OpGet] (new_queue 2 : state Z)))
    as (_ & Hg & Hf & _).
  - apply (bool_decide_unpack _). vm_compute. exact I.
  - vm_compute. repeat constructor.
  - vm_compute. lia.
  - right. vm_compute. discriminate.
  - split; [exact Hg | exact Hf].
Defined.

Lemma unshift_resumes_after_get_witness :
  full (run [OpPut 1] (new_queue 1 : state Z)) = true /\
  exists f st1 st2 st3,
    unshift 9 (run [OpPut 1] (new_queue 1 : state Z)) = Suspended f st1 /\
    get st1 = Returned 1 st2 /\
    unshift 9 st2 = Returned 9 st3 /\
    contents st3 = [9].
Proof.
  split; [reflexivity|].
  destruct (unshift_resumes_after_get (run [OpPut 1] (new_queue 1 : state Z))
              9 1 []) as (f & st1 & st2 & st3 & H1 & _ & H2 & _ & _ & H3 & H4).
  - reflexivity.
  - vm_compute. discriminate.
  - reflexivity.
  - reflexivity.
  - exists f, st1, st2, st3. split_and!; assumption.
Defined.

Lemma unshift_not_counted_witness :
  forallb (fun o => negb (is_put o))
          [OpUnshift 1; OpPop; OpUnshift 2; OpGet; OpView] = true /\
  _unfinished_tasks
    (run [OpUnshift 1; OpPop; OpUnshift 2; OpGet; OpView] (new_queue 0 : state Z))
  = 0.
Proof.
  split; [reflexivity|].
  apply (unshift_not_counted (T := Z) 0
           [OpUnshift 1; OpPop; OpUnshift 2; OpGet; OpView]).
  reflexivity.
Defined.

(** ** One producer task and one consumer task *)

Section TwoTasks.

Context {T : Type}.
Implicit Types (st : state T) (s : tasks T) (abc l : list T) (x : T).

Lemma full_ext st st' :
  contents st' = contents st -> _maxsize st' = _maxsize st -> full st' = full st.
Proof. intros Hc Hm. unfold full, qsize. by rewrite Hc, Hm. Qed.

Lemma full_true_nonempty st : full st = true -> contents st <> [].
Proof.
  unfold full, qsize. destruct (Z.leb_spec (_maxsize st) 0); [done|].
  intros Hle%Z.leb_le Hc. rewrite Hc in Hle. simpl in Hle. lia.
Qed.

(** [put] at the head of its loop: it completes on a queue that is not
    full, and suspends on a new future otherwise. *)
Lemma put_step x st :
  (full st = false /\
   exists st', put x st = Returned tt st' /\
     contents st' = contents st ++ [x] /\ _maxsize st' = _maxsize st /\
     _putters st' = _putters st /\ next_fut st' = next_fut st /\
     (futures st', _getters st') = wakeup (futures st) (_getters st)) \/
  (full st = true /\
   exists st', put x st = Suspended (next_fut st) st' /\
     contents st' = contents st /\ _maxsize st' = _maxsize st /\
     _putters st' = _putters st ++ [next_fut st] /\
     _getters st' = _getters st /\ next_fut st' = S (next_fut st) /\
     futures st' = <[next_fut st := PENDING]> (futures st)).
Proof.
  destruct (full st) eqn:Hf; [right | left]; (split; [done|]).
  - unfold put. rewrite Hf. unfold wait_putter, create_future. simpl.
    eexists. split; [reflexivity|]. by split_and!.
  - destruct (put_spec x st Hf) as (st' & Hput & M).
    exists st'. split; [done|].
    split; [by apply mutated_contents in M|].
    split; [by apply mutated_maxsize in M|].
    unfold put, put_nowait, _put in Hput. rewrite Hf in Hput.
    injection Hput as <-. unfold _wakeup_next_getters. simpl.
    by destruct (wakeup (futures st) (_getters st)).
Qed.

(** [get] at the head of its loop. *)
Lemma get_step st :
  (exists x l, contents st = x :: l /\
   exists st', get st = Returned x st' /\
     contents st' = l /\ _maxsize st' = _maxsize st /\
     _getters st' = _getters st /\ next_fut st' = next_fut st /\
     (futures st', _putters st') = wakeup (futures st) (_putters st)) \/
  (contents st = [] /\
   exists st', get st = Suspended (next_fut st) st' /\
     contents st' = [] /\ _maxsize st' = _maxsize st /\
     _getters st' = _getters st ++ [next_fut st] /\
     _putters st' = _putters st /\ next_fut st' = S (next_fut st) /\
     futures st' = <[next_fut st := PENDING]> (futures st)).
Proof.
  destruct (contents st) as [|x l] eqn:Hc; [right | left].
  - split; [done|]. unfold get, empty. rewrite Hc.
    unfold wait_getter, create_future. simpl.
    eexists. split; [reflexivity|]. by split_and!.
  - exists x, l. split; [done|].
    destruct (get_spec x l st Hc) as (st' & Hget & M).
    exists st'. split; [done|].
    split; [by apply mutated_contents in M|].
    split; [by apply mutated_maxsize in M|].
    unfold get, get_nowait, _get, base_get, empty in Hget. rewrite Hc in Hget.
    injection Hget as <-. unfold _wakeup_next_putters. simpl.
    by destruct (wakeup (futures st) (_putters st)).
Qed.

Lemma wakeup_one_pending (fs : gmap fut fstate) (f : fut) :
  default PENDING (fs !! f) = PENDING ->
  wakeup fs [f] = (<[f := FINISHED]> fs, []).
Proof. intros Hf. simpl. by rewrite Hf. Qed.

(** A task that can run has no future of its own left in the waiters. *)
Lemma runnable_cases st (p : status) :
  runnable st p = true ->
  p = Ready \/ exists f, p = Waiting f /\ future_state st f = FINISHED.
Proof.
  destruct p as [|f]; [by left|]. simpl. intros Hf%bool_decide_eq_true. eauto.
Qed.

Ltac count_lia := rewrite ?length_app; simpl in *; lia.

Ltac measure_lia :=
  repeat match goal with
         | |- context [match ?v with Ready => _ | Waiting _ => _ end] => destruct v
         end;
  simpl; lia.

(** Every segment keeps [tasks_inv] and lowers [tasks_measure]. *)
Lemma step_inv abc (t : task) s s' :
  tasks_inv abc s -> step t s = Some s' ->
  tasks_inv abc s' /\ (tasks_measure s' < tasks_measure s)%nat.
Proof.
  destruct s as [q td p w c r].
  intros (Hdata & Hcount & Hcap & Hp & Hc & Hne). simpl in *.
  destruct t; unfold step; simpl.
  - (* the producer *)
    destruct td as [|x rest]; [done|].
    destruct (runnable q p) eqn:Hrun; [|done].
    assert (Hput0 : _putters q = [] /\ (p = Ready \/ full q = false)).
    { apply runnable_cases in Hrun as [-> | (f & -> & Hfin)]; [by split; [|left]|].
      destruct Hp as (_ & _ & [(Hpend & _) | (_ & Hps & Hnf)]); [congruence|].
      by split; [|right]. }
    destruct Hput0 as [Hps Hready].
    destruct (put_step x q)
      as [(Hf & st' & -> & Hct & Hm & Hps' & Hnf & Hwake)
         | (Hf & st' & -> & Hct & Hm & Hps' & Hgs & Hnf & Hfs)].
    + (* the item goes in *)
      intros [= <-]. unfold tasks_inv, tasks_measure. simpl. split.
      * refine (conj _ (conj _ (conj _ (conj _ (conj _ _))))); [| count_lia | | | |].
        -- rewrite Hct, <- Hdata, <- !app_assoc. done.
        -- apply full_false_iff in Hf. unfold qsize in *. rewrite Hct, Hm.
           rewrite length_app. simpl. lia.
        -- by rewrite Hps'.
        -- destruct c as [|g].
           ++ rewrite Hc in Hwake. simpl in Hwake. by injection Hwake as _ ->.
           ++ destruct Hc as (Hw & Hlt & [(Hpend & Hgs & Hemp) | (Hfin & Hgs & Hnemp)]).
              ** rewrite Hgs, (wakeup_one_pending _ g Hpend) in Hwake.
                 injection Hwake as Hfs Hgs'.
                 split; [done|]. split; [by rewrite Hnf|]. right.
                 refine (conj _ (conj _ _)); [| done |].
                 --- unfold future_state. rewrite Hfs. by rewrite lookup_insert_eq.
                 --- rewrite Hct. by destruct (contents q).
              ** rewrite Hgs in Hwake. simpl in Hwake. injection Hwake as Hfs Hgs'.
                 split; [done|]. split; [by rewrite Hnf|]. right.
                 refine (conj _ (conj _ _)); [| done |].
                 --- unfold future_state. by rewrite Hfs.
                 --- rewrite Hct. by destruct (contents q).
        -- done.
      * clear; measure_lia.
    + (* the queue is full: the producer suspends *)
      destruct Hready as [-> | Hnotfull]; [|congruence].
      intros [= <-]. unfold tasks_inv, tasks_measure. simpl. split.
      * refine (conj _ (conj _ (conj _ (conj _ (conj _ _))))); [| count_lia | | | |].
        -- by rewrite Hct.
        -- unfold qsize in *. by rewrite Hct, Hm.
        -- split; [done|]. split; [rewrite Hnf; lia|]. left. refine (conj _ (conj _ _)).
           ++ unfold future_state. rewrite Hfs. by rewrite lookup_insert_eq.
           ++ by rewrite Hps', Hps.
           ++ by rewrite (full_ext _ _ Hct Hm).
        -- destruct c as [|g]; [by rewrite Hgs|].
           destruct Hc as (Hw & Hlt & Hcase).
           assert (Hfg : future_state st' g = future_state q g).
           { unfold future_state. rewrite Hfs. rewrite lookup_insert_ne; [done | lia]. }
           split; [done|]. split; [rewrite Hnf; lia|]. by rewrite Hfg, Hgs, Hct.
        -- destruct c as [|g]; [done|]. destruct Hc as (_ & Hlt & _). lia.
      * clear; measure_lia.
  - (* the consumer *)
    destruct w as [|n]; [done|].
    destruct (runnable q c) eqn:Hrun; [|done].
    assert (Hget0 : _getters q = [] /\ (c = Ready \/ contents q <> [])).
    { apply runnable_cases in Hrun as [-> | (g & -> & Hfin)]; [by split; [|left]|].
      destruct Hc as (_ & _ & [(Hpend & _) | (_ & Hgs & Hnemp)]); [congruence|].
      by split; [|right]. }
    destruct Hget0 as [Hgs Hready].
    destruct (get_step q)
      as [(y & l & Hy & st' & -> & Hct & Hm & Hgs' & Hnf & Hwake)
         | (Hemp & st' & -> & Hct & Hm & Hgs' & Hps & Hnf & Hfs)].
    + (* an item comes out *)
      intros [= <-]. unfold tasks_inv, tasks_measure. simpl.
      assert (Hsize : _maxsize q <= 0 \/
                      Z.of_nat (length l) < _maxsize q).
      { unfold qsize in Hcap. rewrite Hy in Hcap. simpl in Hcap. lia. }
      assert (Hnotfull : full st' = false).
      { apply full_false_iff. unfold qsize. rewrite Hct, Hm. lia. }
      split.
      * refine (conj _ (conj _ (conj _ (conj _ (conj _ _))))); [| count_lia | | | |].
        -- rewrite Hct, <- Hdata, Hy, <- !app_assoc. done.
        -- unfold qsize. rewrite Hct, Hm. lia.
        -- destruct p as [|f].
           ++ rewrite Hp in Hwake. simpl in Hwake. by injection Hwake as _ ->.
           ++ destruct Hp as (Htd & Hlt & [(Hpend & Hps & Hfull) | (Hfin & Hps & Hnfull)]).
              ** rewrite Hps, (wakeup_one_pending _ f Hpend) in Hwake.
                 injection Hwake as Hfs Hps'.
                 split; [done|]. split; [by rewrite Hnf|]. right.
                 refine (conj _ (conj _ _)); [| done | done].
                 unfold future_state. rewrite Hfs. by rewrite lookup_insert_eq.
              ** rewrite Hps in Hwake. simpl in Hwake. injection Hwake as Hfs Hps'.
                 split; [done|]. split; [by rewrite Hnf|]. right.
                 refine (conj _ (conj _ _)); [| done | done].
                 unfold future_state. by rewrite Hfs.
        -- by rewrite Hgs'.
        -- by destruct p.
      * clear; measure_lia.
    + (* the queue is empty: the consumer suspends *)
      destruct Hready as [-> | Hnonempty]; [|congruence].
      intros [= <-]. unfold tasks_inv, tasks_measure. simpl. split.
      * refine (conj _ (conj _ (conj _ (conj _ (conj _ _))))); [| count_lia | | | |].
        -- by rewrite Hct, <- Hemp.
        -- unfold qsize in *. by rewrite Hct, Hm, <- Hemp.
        -- destruct p as [|f]; [by rewrite Hps|].
           destruct Hp as (Htd & Hlt & Hcase).
           assert (Hff : future_state st' f = future_state q f).
           { unfold future_state. rewrite Hfs. rewrite lookup_insert_ne; [done | lia]. }
           assert (Hfull : full st' = full q).
           { apply full_ext; [by rewrite Hct, Hemp | done]. }
           split; [done|]. split; [rewrite Hnf; lia|]. by rewrite Hff, Hps, Hfull.
        -- split; [done|]. split; [rewrite Hnf; lia|]. left. refine (conj _ (conj _ _)).
           ++ unfold future_state. rewrite Hfs. by rewrite lookup_insert_eq.
           ++ by rewrite Hgs', Hgs.
           ++ done.
        -- destruct p as [|f]; [done|]. destruct Hp as (_ & Hlt & _). lia.
      * clear; measure_lia.
Qed.

Lemma tasks_inv_start st (a b c : T) :
  contents st = [] -> _getters st = [] -> _putters st = [] ->
  tasks_inv [a; b; c] (put3_and_get3 st a b c).
Proof.
  intros Hc Hg Hp. unfold tasks_inv, put3_and_get3, qsize. simpl.
  rewrite Hc. simpl. split_and!; try done.
  destruct (Z.le_gt_cases (_maxsize st) 0); [by left | right; lia].
Qed.

Lemma run_schedule_inv abc (sched : list task) s s' :
  tasks_inv abc s -> run_schedule sched s = Some s' ->
  tasks_inv abc s' /\ (length sched + tasks_measure s' <= tasks_measure s)%nat.
Proof.
  revert s. induction sched as [|t sched IH]; intros s Hinv; simpl.
  - intros [= <-]. split; [done | lia].
  - destruct (step t s) as [s1|] eqn:Hstep; [|done]. intros Hrun.
    destruct (step_inv abc t s s1 Hinv Hstep) as [Hinv1 Hlt].
    destruct (IH s1 Hinv1 Hrun) as [Hinv' Hle]. split; [done | lia].
Qed.

(** No deadlock: when neither task can run, every item has been handed
    over. *)
Lemma stuck_complete abc s :
  tasks_inv abc s ->
  step Producer s = None -> step Consumer s = None -> results s = abc.
Proof.
  destruct s as [q td p w c r].
  intros (Hdata & Hcount & Hcap & Hp & Hc & Hne). unfold step. simpl in *.
  intros HP HC.
  assert (Hdone : w = O -> r = abc).
  { intros ->. assert (Hlen : length (contents q ++ td) = O).
    { rewrite <- Hdata, length_app in Hcount. lia. }
    apply nil_length_inv in Hlen. rewrite Hlen, app_nil_r in Hdata. done. }
  destruct w as [|n]; [by apply Hdone|]. exfalso.
  assert (Hempty : contents q = []).
  { destruct (runnable q c) eqn:Hrun.
    - destruct (get_step q) as [(y & l & _ & st' & Hget & _)
                               | (_ & st' & Hget & _)];
        by rewrite Hget in HC.
    - destruct c as [|g]; [done|]. simpl in Hrun.
      apply bool_decide_eq_false in Hrun.
      by destruct Hc as (_ & _ & [(_ & _ & ?) | (? & _)]). }
  destruct td as [|x rest].
  - rewrite Hempty in Hdata. simpl in Hdata. rewrite app_nil_r in Hdata.
    subst abc. lia.
  - destruct (runnable q p) eqn:Hrun.
    + destruct (put_step x q) as [(_ & st' & Hput & _) | (_ & st' & Hput & _)];
        by rewrite Hput in HP.
    + destruct p as [|f]; [done|]. simpl in Hrun.
      apply bool_decide_eq_false in Hrun.
      destruct Hp as (_ & _ & [(_ & _ & Hfull) | (? & _)]); [|done].
      by apply full_true_nonempty in Hfull.
Qed.

(** From every state of a run the two tasks can go on until neither can
    run any more. *)
Lemma can_finish abc (n : nat) : forall s,
  (tasks_measure s <= n)%nat -> tasks_inv abc s ->
  exists sched s', run_schedule sched s = Some s' /\
                   step Producer s' = None /\ step Consumer s' = None.
Proof.
  induction n as [|n IH]; intros s Hm Hinv.
  - exists [], s. split; [done|]. split.
    + destruct (step Producer s) as [s1|] eqn:Hs; [|done].
      apply (step_inv abc _ _ _ Hinv) in Hs as [_ ?]. lia.
    + destruct (step Consumer s) as [s1|] eqn:Hs; [|done].
      apply (step_inv abc _ _ _ Hinv) in Hs as [_ ?]. lia.
  - destruct (step Producer s) as [s1|] eqn:HP.
    { destruct (step_inv abc _ _ _ Hinv HP) as [Hinv1 Hlt].
      destruct (IH s1) as (sched & s' & Hrun & ?); [lia | done |].
      exists (Producer :: sched), s'. cbn [run_schedule]. by rewrite HP. }
    destruct (step Consumer s) as [s1|] eqn:HC.
    { destruct (step_inv abc _ _ _ Hinv HC) as [Hinv1 Hlt].
      destruct (IH s1) as (sched & s' & Hrun & ?); [lia | done |].
      exists (Consumer :: sched), s'. cbn [run_schedule]. by rewrite HC. }
    by exists [], s.
Qed.

End TwoTasks.

(** On the claim as worded (for every queue the three gets return
    [a; b; c]): on a queue that already holds 9 they return 9 first. *)
Lemma fifo_order_nonempty_queue :
  ~ (forall (st : state Z) (a b c : Z) r st',
       put3_get3 a b c st = Returned r st' -> r = [a; b; c]).
Proof.
  intros H.
  assert (Hrun : put3_get3 1 2 3 (run [OpPutNowait 9] (new_queue 0 : state Z))
                 = Returned [9; 1; 2]
                     (state_of (put3_get3 1 2 3
                                  (run [OpPutNowait 9] (new_queue 0 : state Z))))).
  { vm_compute. reflexivity. }
  apply H in Hrun. discriminate Hrun.
Qed.

(** C6, as the code has it.  For every queue, three [put]s followed by
    three [get]s by one task return, when they complete, the first three of
    the items that the queue held followed by [a], [b], [c].  On a queue
    that holds no item this is [a; b; c], and the six calls do complete
    when the queue is unbounded or has room for three items.  For every
    capacity, with the [put]s in one task and the [get]s in another and
    nobody else waiting on the queue, under every interleaving of the two:
    the results so far are a prefix of [a; b; c]; a run has at most 14
    segments; when neither task can run the results are [a; b; c], so there
    is no deadlock; and every run can be continued to that end. *)
Theorem fifo_order {T} (st : state T) (a b c : T) :
  (forall r st', put3_get3 a b c st = Returned r st' ->
                 r = take 3 (contents st ++ [a; b; c])) /\
  (contents st = [] ->
   (forall r st', put3_get3 a b c st = Returned r st' -> r = [a; b; c]) /\
   (_maxsize st <= 0 \/ 3 <= _maxsize st ->
    exists st', put3_get3 a b c st = Returned [a; b; c] st') /\
   (_getters st = [] -> _putters st = [] ->
    forall sched s,
      run_schedule sched (put3_and_get3 st a b c) = Some s ->
      results s `prefix_of` [a; b; c] /\
      (length sched <= 14)%nat /\
      (step Producer s = None -> step Consumer s = None ->
       results s = [a; b; c]) /\
      exists sched' s',
        run_schedule sched' s = Some s' /\
        step Producer s' = None /\ step Consumer s' = None /\
        results s' = [a; b; c])).
Proof.
  split; [intros r st'; apply put3_get3_general|].
  intros Hc. split; [|split].
  - intros r st' Hr. apply put3_get3_general in Hr. by rewrite Hc in Hr.
  - intros Hcap.
    destruct (put3_get3_completes st a b c) as (r & st' & Hr).
    { unfold qsize. rewrite Hc. simpl. lia. }
    pose proof (put3_get3_general _ _ _ _ _ _ Hr) as Heq.
    rewrite Hc in Heq. simpl in Heq. subst r. eauto.
  - intros Hg Hp sched s Hrun.
    pose proof (tasks_inv_start st a b c Hc Hg Hp) as Hinv0.
    destruct (run_schedule_inv _ _ _ _ Hinv0 Hrun) as [Hinv Hle].
    split_and!.
    + destruct Hinv as (Hdata & _). eexists. by rewrite <- Hdata.
    + unfold tasks_measure in Hle at 2. simpl in Hle. lia.
    + by apply stuck_complete.
    + destruct (can_finish [a; b; c] (tasks_measure s) s) as (sched' & s' & Hrun' & HP & HC);
        [lia | done |].
      exists sched', s'. split_and!; try done.
      apply (stuck_complete [a; b; c]); [|done|done].
      by apply (run_schedule_inv _ _ _ _ Hinv Hrun').
Qed.

Lemma fifo_order_witness :
  contents (new_queue 1 : state Z) = [] /\
  _getters (new_queue 1 : state Z) = [] /\
  _putters (new_queue 1 : state Z) = [] /\
  (exists s,
     run_schedule [Consumer; Producer; Producer; Consumer; Consumer; Producer;
                   Producer; Consumer; Consumer; Producer; Consumer]
                  (put3_and_get3 (new_queue 1) 10 20 30) = Some s /\
     results s = [10; 20; 30]) /\
  exists st', put3_get3 10 20 30 (new_queue 3 : state Z)
              = Returned [10; 20; 30] st'.
Proof.
  split; [reflexivity|]. split; [reflexivity|]. split; [reflexivity|]. split.
  - assert (Hsome : exists s,
              run_schedule [Consumer; Producer; Producer; Consumer; Consumer;
                            Producer; Producer; Consumer; Consumer; Producer;
                            Consumer]
                           (put3_and_get3 (new_queue 1) 10 20 30) = Some s /\
              step Producer s = None /\ step Consumer s = None).
    { vm_compute. eexists. split; [reflexivity|].
      split; vm_compute; reflexivity. }
    destruct Hsome as (s & Hrun & HP & HC). exists s. split; [exact Hrun|].
    destruct (fifo_order (new_queue 1 : state Z) 10 20 30) as (_ & H).
    destruct (H eq_refl) as (_ & _ & Htasks).
    destruct (Htasks eq_refl eq_refl _ s Hrun) as (_ & _ & Hstuck & _).
    exact (Hstuck HP HC).
  - destruct (fifo_order (new_queue 3 : state Z) 10 20 30) as (_ & H).
    destruct (H eq_refl) as (_ & Hseq & _).
    apply Hseq. right. simpl. lia.
Defined.
